(** * gridtext: the paragraph box (src/par-box.h) and its node model (src/layout.h)

    A shallow embedding of [ParBox]: the greedy [calc_layout], the
    breakpoint predicates, [compute_adjustment_ratio], [add_active_node]
    and the Knuth-Plass scan of [compute_breaks].

    Numbers.  [Length] (length.h is not part of the sources) and [double]
    are used by the code with ordinary real arithmetic and comparisons; they
    are modelled by the exact rationals [Q], so rounding, infinities and NaN
    are outside the model.  [size_t] is [nat], [int] is [Z], and the one
    narrowing conversion of the code (a [double] stored into the [int] field
    [demerits]) is written out in [double_to_int].

    Undefined behaviour.  Every place where the C++ text has no defined
    result (indexing past the end of a vector, [back()] of an empty vector,
    dereferencing [begin()] of an empty list, an out-of-range conversion) is a
    [fault] of the error monad [result]. *)

From Stdlib Require Import List Bool Arith ZArith QArith Qabs Qminmax Lia Lqa Sorted.
Import ListNotations.

Set Implicit Arguments.

(** ** Numbers *)

Definition Length : Type := Q.
Definition double : Type := Q.

(** [a < b] and [a <= b] on doubles, as the boolean the C++ comparison yields. *)
Definition Qltb (a b : Q) : bool := negb (Qle_bool b a).
Definition Qleb (a b : Q) : bool := Qle_bool a b.

(** A [bool] promoted to a number, as C++ does in arithmetic and comparisons. *)
Definition bool_to_double (b : bool) : double := if b then 1 else 0.

(** [a <= b <= c] as C++ parses it: [(a <= b) <= c], the left comparison
    promoted to 0 or 1 and then compared with [c]. *)
Definition chained_le (a b c : double) : bool :=
  Qleb (bool_to_double (Qleb a b)) c.

Definition INT_MIN : Z := (- 2 ^ 31)%Z.
Definition INT_MAX : Z := (2 ^ 31 - 1)%Z.

(** ** Faults and the error monad *)

Inductive fault : Type :=
| IndexOutOfRange     (* operator[] past the end of a vector *)
| BackOfEmptyVector   (* back() of an empty vector *)
| DerefEndIterator    (* begin() of an empty list dereferenced *)
| IntOutOfRange.      (* a double outside the range of int converted to int *)

Definition result (A : Type) : Type := (fault + A)%type.

Definition ret {A : Type} (a : A) : result A := inr a.
Definition raise {A : Type} (e : fault) : result A := inl e.
Definition bind {A B : Type} (m : result A) (k : A -> result B) : result B :=
  match m with
  | inl e => inl e
  | inr a => k a
  end.

Declare Scope result_scope.
Delimit Scope result_scope with result.
Notation "x <- m ;; k" := (bind m (fun x => k))
  (at level 61, m at next level, right associativity) : result_scope.
Notation "' p <- m ;; k" := (bind m (fun x => let p := x in k))
  (at level 61, p pattern, m at next level, right associativity) : result_scope.
Open Scope result_scope.

(** [v[i]] on a vector. *)
Definition at_index {A : Type} (v : list A) (i : nat) : result A :=
  match nth_error v i with
  | Some a => ret a
  | None => raise IndexOutOfRange
  end.

(** [v.back()]. *)
Definition back {A : Type} (v : list A) : result A :=
  match rev v with
  | a :: _ => ret a
  | [] => raise BackOfEmptyVector
  end.

(** Conversion of a double to int: the fractional part is discarded
    (truncation toward zero); outside the range of int there is no defined
    result. *)
Definition double_to_int (d : double) : result Z :=
  let z := Z.quot (Qnum d) (Zpos (Qden d)) in
  if ((INT_MIN <=? z) && (z <=? INT_MAX))%Z then ret z else raise IntOutOfRange.

(** ** The node model (layout.h) *)

Inductive NodeType : Type := none | box | glue | penalty.

Definition NodeType_eqb (a b : NodeType) : bool :=
  match a, b with
  | none, none | box, box | glue, glue | penalty, penalty => true
  | _, _ => false
  end.

(** The abstract class [Box<Renderer>]: the virtual geometry methods.
    [calc_layout] and [place] mutate the box, so they return the new box;
    [render] only talks to the renderer and is left out. *)
Class Box (B : Type) : Type := {
  width : B -> Length;
  ascent : B -> Length;
  descent : B -> Length;
  voff : B -> Length;
  calc_layout : B -> Length -> Length -> B;
  place : B -> Length -> Length -> B
}.

Definition height {B : Type} `{Box B} (b : B) : Length := ascent b + descent b.

(** Modelled from the spec: the class template [Glue<Renderer>] of glue.h,
    which is not part of the sources (layout.h has an older [Glue] with
    [width()] only).  A glue has a nominal width, a stretch and a shrink;
    par-box.h reads them through [width()], [stretch()] and [shrink()]. *)
Module Glue.
Record t : Type := make { width : Length; stretch : Length; shrink : Length }.
End Glue.

(** Modelled from the spec: the class template [Penalty<Renderer>] of
    penalty.h, which is not part of the sources.  A penalty has a cost, a
    flagged bit and a rendered width; par-box.h reads them through
    [penalty()], [flagged()] and [width()]. *)
Module Penalty.
Record t : Type := make { penalty : double; flagged : bool; width : Length }.
End Penalty.

(** A node of the paragraph stream.  The tag [none] is the one of a bare
    [LayoutNode], which has no [width()] and is no member of a node list. *)
Inductive LayoutNode (B : Type) : Type :=
| BoxNode (b : B)
| GlueNode (g : Glue.t)
| PenaltyNode (p : Penalty.t).

Arguments BoxNode {B} b.
Arguments GlueNode {B} g.
Arguments PenaltyNode {B} p.

Definition type {B : Type} (n : LayoutNode B) : NodeType :=
  match n with
  | BoxNode _ => box
  | GlueNode _ => glue
  | PenaltyNode _ => penalty
  end.

Definition node_width {B : Type} `{Box B} (n : LayoutNode B) : Length :=
  match n with
  | BoxNode b => width b
  | GlueNode g => Glue.width g
  | PenaltyNode p => Penalty.width p
  end.

(** Modelled from the spec: a leaf box of fixed size (the leaf boxes of the
    repository are not part of the sources).  [calc_layout] ignores the
    hints, [place] records the offset.  It is the box of the example
    inputs. *)
Record FixedBox : Type := {
  fb_width : Length;
  fb_ascent : Length;
  fb_descent : Length;
  fb_x : Length;
  fb_y : Length
}.

#[export] Instance FixedBox_Box : Box FixedBox := {
  width := fb_width;
  ascent := fb_ascent;
  descent := fb_descent;
  voff := fun _ => 0;
  calc_layout := fun b _ _ => b;
  place := fun b x y =>
    {| fb_width := fb_width b; fb_ascent := fb_ascent b;
       fb_descent := fb_descent b; fb_x := x; fb_y := y |}
}.

(** The sentinels [Glue<Renderer>::infinity] and [Penalty<Renderer>::infinity]
    are declared in glue.h and penalty.h, which are not part of the sources:
    they are parameters of the development. *)
Class Sentinels : Type := {
  Glue_infinity : double;
  Penalty_infinity : double
}.

(** ** ParBox (par-box.h) *)

Module ParBox.

(** The data members of the class. *)
Record t (B : Type) : Type := make {
  m_nodes : list (LayoutNode B);
  m_vspacing : Length;
  m_hspacing : Length;
  m_width : Length;
  m_ascent : Length;
  m_descent : Length;
  m_voff : Length;
  m_multiline_shift : Length;
  m_x : Length;
  m_y : Length;
  m_sum_widths : list Length;
  m_sum_stretch : list Length;
  m_sum_shrink : list Length
}.

(** The constructor [ParBox(nodes, vspacing, hspacing)] (lines 85-89): the
    geometry is 0 and the vectors are empty.  [m_multiline_shift] is not
    initialised by the constructor and only read by [render], after
    [calc_layout] has set it; it is taken as 0. *)
Definition create {B : Type} (nodes : list (LayoutNode B))
    (vspacing hspacing : Length) : t B :=
  make nodes vspacing hspacing 0 0 0 0 0 0 0 [] [] [].

(** The local variables of the walk of [calc_layout]. *)
Module Walk.
Record t : Type := make {
    x_off : Length;
    y_off : Length;
    lines : Z;
    ascent : Length;
    descent : Length
  }.
  (** [Length x_off = 0, y_off = 0; int lines = 0; Length ascent = 0;
      Length descent = 0;] *)
Definition start : t := make 0 0 0 0 0.
End Walk.

Section Layout.
Context {B : Type} `{Box B}.

  (** The wrap (lines 113-116): back to the left edge, one line down, one
      more line, the running descent reset; the ascent is kept. *)
Definition wrap (vspacing : Length) (st : Walk.t) : Walk.t :=
    Walk.make 0 (Walk.y_off st - vspacing) (Walk.lines st + 1)
              (Walk.ascent st) 0.

  (** One turn of the loop of [calc_layout] (lines 105-134): the locals and
      the node after the turn. *)
Definition layout_node (vspacing hspacing width_hint height_hint : Length)
      (st : Walk.t) (n : LayoutNode B) : Walk.t * LayoutNode B :=
    match n with
    | BoxNode b =>
        let b1 := calc_layout b width_hint height_hint in
        let st1 :=
          if Qltb width_hint (Walk.x_off st + width b1)
          then wrap vspacing st else st in
        let b2 := place b1 (Walk.x_off st1) (Walk.y_off st1) in
        let x1 := Walk.x_off st1 + width b2 in
        let x2 := x1 + hspacing in
        let d :=
          if Qltb (Walk.descent st1) (descent b2)
          then descent b2 else Walk.descent st1 in
        let a :=
          if (Walk.lines st1 =? 0)%Z && Qltb (Walk.ascent st1) (ascent b2)
          then ascent b2 else Walk.ascent st1 in
        (Walk.make x2 (Walk.y_off st1) (Walk.lines st1) a d, BoxNode b2)
    | GlueNode _ => (st, n)      (* not implemented *)
    | PenaltyNode _ => (st, n)
    end.

  (** The loop over [m_nodes], from the locals [st]. *)
Fixpoint layout_nodes (vspacing hspacing width_hint height_hint : Length)
      (st : Walk.t) (nodes : list (LayoutNode B))
      : Walk.t * list (LayoutNode B) :=
    match nodes with
    | [] => (st, [])
    | n :: rest =>
        let (st1, n1) :=
          layout_node vspacing hspacing width_hint height_hint st n in
        let (st2, rest1) :=
          layout_nodes vspacing hspacing width_hint height_hint st1 rest in
        (st2, n1 :: rest1)
    end.

  (** The locals at the end of the walk of [calc_layout]. *)
Definition walk (pb : t B) (width_hint height_hint : Length) : Walk.t :=
    fst (layout_nodes (m_vspacing pb) (m_hspacing pb) width_hint height_hint
                      Walk.start (m_nodes pb)).

  (** [void calc_layout(Length width_hint, Length height_hint)] *)
Definition calc_layout (pb : t B) (width_hint height_hint : Length) : t B :=
    let (st, nodes) :=
      layout_nodes (m_vspacing pb) (m_hspacing pb) width_hint height_hint
                   Walk.start (m_nodes pb) in
    let multiline_shift := inject_Z (Walk.lines st) * m_vspacing pb in
    make nodes (m_vspacing pb) (m_hspacing pb)
         width_hint                              (* m_width *)
         (Walk.ascent st + multiline_shift)      (* m_ascent *)
         (Walk.descent st)                       (* m_descent *)
         (m_voff pb)
         multiline_shift
         (m_x pb) (m_y pb)
         (m_sum_widths pb) (m_sum_stretch pb) (m_sum_shrink pb).

  (** [void place(Length x, Length y)] *)
Definition place (pb : t B) (x y : Length) : t B :=
    make (m_nodes pb) (m_vspacing pb) (m_hspacing pb) (m_width pb)
         (m_ascent pb) (m_descent pb) (m_voff pb) (m_multiline_shift pb)
         x y
         (m_sum_widths pb) (m_sum_stretch pb) (m_sum_shrink pb).

End Layout.

Section Breaks.
Context {B : Type} `{Box B} `{Sentinels}.

  (** [bool is_feasible_breakpoint(size_t i)] *)
Definition is_feasible_breakpoint (pb : t B) (i : nat) : result bool :=
    node <- at_index (m_nodes pb) i ;;
    match node with
    | PenaltyNode p =>
        if Qltb (Penalty.penalty p) Penalty_infinity then ret true
        else ret false
    | _ =>
        if (0 <? i)%nat && NodeType_eqb (type node) glue then
          prev <- at_index (m_nodes pb) (i - 1) ;;
          if NodeType_eqb (type prev) box then ret true else ret false
        else ret false
    end.

  (** [bool is_forced_break(size_t i)] *)
Definition is_forced_break (pb : t B) (i : nat) : result bool :=
    node <- at_index (m_nodes pb) i ;;
    match node with
    | PenaltyNode p =>
        if Qleb (Penalty.penalty p) (-1 * Penalty_infinity) then ret true
        else ret false
    | _ => ret false
    end.

Definition measure_width (pb : t B) (i1 i2 : nat) : result Length :=
    s2 <- at_index (m_sum_widths pb) i2 ;;
    s1 <- at_index (m_sum_widths pb) i1 ;;
    ret (s2 - s1).

Definition measure_stretch (pb : t B) (i1 i2 : nat) : result Length :=
    s2 <- at_index (m_sum_stretch pb) i2 ;;
    s1 <- at_index (m_sum_stretch pb) i1 ;;
    ret (s2 - s1).

Definition measure_shrink (pb : t B) (i1 i2 : nat) : result Length :=
    s2 <- at_index (m_sum_shrink pb) i2 ;;
    s1 <- at_index (m_sum_shrink pb) i1 ;;
    ret (s2 - s1).

  (** The length of the candidate line (lines 195-200): the measured width,
      plus the width of the node at [i2] when that node is a penalty. *)
Definition line_length (pb : t B) (i1 i2 : nat) : result Length :=
    len <- measure_width pb i1 i2 ;;
    node <- at_index (m_nodes pb) i2 ;;
    if NodeType_eqb (type node) penalty then ret (len + node_width node)
    else ret len.

  (** The available length (lines 205-210). *)
Definition available_length (line : nat) (line_lengths : list Length)
      : result Length :=
    if (line <? length line_lengths)%nat then at_index line_lengths line
    else back line_lengths.

  (** [double compute_adjustment_ratio(size_t i1, size_t i2, size_t line,
      const vector<Length> &line_lengths)] *)
Definition compute_adjustment_ratio (pb : t B) (i1 i2 line : nat)
      (line_lengths : list Length) : result double :=
    len <- line_length pb i1 i2 ;;
    len_avail <- available_length line line_lengths ;;
    if Qltb len len_avail then
      stretch <- measure_stretch pb i1 i2 ;;
      if Qltb 0 stretch then ret ((len_avail - len) / stretch)
      else ret Glue_infinity
    else if Qltb len_avail len then
      shrink <- measure_shrink pb i1 i2 ;;
      if Qltb 0 shrink then ret ((len_avail - len) / shrink)
      else ret Glue_infinity
    else ret 0.

(** The internal struct [Breakpoint] (lines 43-57).  [previous] points to
    another breakpoint or is [nullptr]; breakpoints are never modified after
    their construction, so the pointer is modelled by the breakpoint it
    points to. *)
#[warnings="-register-all"]
Inductive Breakpoint : Type := mkBreakpoint {
  position : nat;
  line : nat;
  fitness_class : Z;
  totalwidth : Length;
  totalstretch : Length;
  totalshrink : Length;
  demerits : Z;
  previous : option Breakpoint
}.

Definition BreakpointList : Type := list Breakpoint.
Definition BreaksList : Type := list nat.

(** The second loop of [add_active_node] (lines 74-79), from the insertion
    point: is there, among the entries of the same line number that follow,
    one with the fitness class and the position of [node]? *)
Fixpoint same_line_duplicate (l : BreakpointList) (node : Breakpoint) : bool :=
  match l with
  | [] => false
  | b :: rest =>
      if (line b =? line node)%nat then
        if (fitness_class b =? fitness_class node)%Z
           && (position b =? position node)%nat
        then true
        else same_line_duplicate rest node
      else false
  end.

(** [void add_active_node(BreakpointList &active_nodes, const Breakpoint &node)] *)
Fixpoint add_active_node (active_nodes : BreakpointList) (node : Breakpoint)
    : BreakpointList :=
  match active_nodes with
  | [] => [node]
  | b :: rest =>
      if (line b <? line node)%nat then b :: add_active_node rest node
      else if same_line_duplicate active_nodes node then active_nodes
      else node :: active_nodes
  end.

(** The five values (w, y, z, p, f) of a node (lines 254-272). *)
Definition node_stretch (n : LayoutNode B) : Length :=
  match n with GlueNode g => Glue.stretch g | _ => 0 end.
Definition node_shrink (n : LayoutNode B) : Length :=
  match n with GlueNode g => Glue.shrink g | _ => 0 end.
Definition node_penalty (n : LayoutNode B) : double :=
  match n with PenaltyNode p => Penalty.penalty p | _ => 0 end.
Definition node_flagged (n : LayoutNode B) : bool :=
  match n with PenaltyNode p => Penalty.flagged p | _ => false end.

(** The running sums of lines 278-289: entry [i] is the sum of the values
    before position [i]. *)
Fixpoint running_sums (sum : Length) (v : list Length) : list Length :=
  match v with
  | [] => []
  | x :: rest => sum :: running_sums (sum + x) rest
  end.

(** The members after lines 275-289 of [compute_breaks]. *)
Definition precompute_sums (pb : t B) : t B :=
  make (m_nodes pb) (m_vspacing pb) (m_hspacing pb) (m_width pb)
       (m_ascent pb) (m_descent pb) (m_voff pb) (m_multiline_shift pb)
       (m_x pb) (m_y pb)
       (running_sums 0 (map node_width (m_nodes pb)))
       (running_sums 0 (map node_stretch (m_nodes pb)))
       (running_sums 0 (map node_shrink (m_nodes pb))).

(** The sentinel breakpoint: [active_nodes.emplace_back(0, 0, 1, 0, 0, 0, 0)]. *)
Definition sentinel : Breakpoint := mkBreakpoint 0 0 1 0 0 0 0 None.

(** The fitness class of a line of adjustment ratio [r] (lines 333-337). *)
Definition fitness (r : double) : Z :=
  if Qltb r (-(1#2)) then 0
  else if Qleb r (1#2) then 1
  else if Qleb r 1 then 2
  else 3.

(** What a call of [compute_breaks] comes to.  The function has one
    [return] statement (line 240); when control reaches the closing brace
    of the function (line 390) no value is returned, and [NoReturn] keeps
    the working set and the local [final_breaks] of the last turn of the
    loop. *)
Inductive outcome : Type :=
| Returned (breaks : BreaksList)
| NoReturn (active_nodes : BreakpointList) (final_breaks : BreaksList)
| Undefined (why : fault).

Section Scan.
Variable pb : t B.
Variables (p : list double) (f : list bool).
Variable line_lengths : list Length.
Variables tolerance fitness_demerit flagged_demerit : double.

(** The demerits of the line from an active node to position [i], before
    the adjustments (lines 321-327). *)
Definition line_demerits (i : nat) (r : double) : result double :=
  p_i <- at_index p i ;;
  if Qleb 0 p_i then ret ((1 + 100 * Qabs r ^ 3 + p_i) ^ 3)
  else
    forced <- is_forced_break pb i ;;
    if forced then ret ((1 + 100 * Qabs r ^ 3) ^ 2 - p_i ^ 2)
    else ret ((1 + 100 * Qabs r ^ 3) ^ 2).

(** The body of [if (-1 <= r <= tolerance)] (lines 318-349): the breakpoint
    appended to [breaks].  The constructor is called with seven arguments,
    so [previous] takes its default [nullptr]; the double [demerits] is
    converted to the [int] parameter. *)
Definition new_breakpoint (i : nat) (a : Breakpoint) (r : double)
    : result Breakpoint :=
  d0 <- line_demerits i r ;;
  f_i <- at_index f i ;;
  f_a <- at_index f (position a) ;;
  let d1 := d0 + flagged_demerit * bool_to_double f_i * bool_to_double f_a in
  let fc := fitness r in
  let d2 :=
    if (1 <? Z.abs (fc - fitness_class a))%Z then d1 + fitness_demerit
    else d1 in
  sw <- at_index (m_sum_widths pb) i ;;
  sy <- at_index (m_sum_stretch pb) i ;;
  sz <- at_index (m_sum_shrink pb) i ;;
  d <- double_to_int d2 ;;
  ret (mkBreakpoint i (line a + 1) fc sw sy sz d None).

(** The test of line 312, [r < -1 || is_forced_break(i)]. *)
Definition pruned (i : nat) (r : double) : result bool :=
  if Qltb r (-1) then ret true else is_forced_break pb i.

(** The while loop over the active nodes (lines 305-352) at position [i]:
    the active nodes that are left and the new breakpoints, in the order
    they are appended. *)
Fixpoint scan_active (i : nat) (active_nodes : BreakpointList)
    : result (BreakpointList * BreakpointList) :=
  match active_nodes with
  | [] => ret ([], [])
  | a :: rest =>
      r <- compute_adjustment_ratio pb (position a) i (line a) line_lengths ;;
      erase <- pruned i r ;;
      if erase then scan_active i rest
      else if chained_le (-1) r tolerance then
        brk <- new_breakpoint i a r ;;
        '(kept, breaks) <- scan_active i rest ;;
        ret (a :: kept, brk :: breaks)
      else
        '(kept, breaks) <- scan_active i rest ;;
        ret (a :: kept, breaks)
  end.

(** Lines 353-356. *)
Definition add_breaks (active_nodes breaks : BreakpointList) : BreakpointList :=
  fold_left add_active_node breaks active_nodes.

(** Lines 298-357: the working set after position [i]. *)
Definition scan_position (i : nat) (active_nodes : BreakpointList)
    : result BreakpointList :=
  feasible <- is_feasible_breakpoint pb i ;;
  if feasible then
    '(kept, breaks) <- scan_active i active_nodes ;;
    ret (add_breaks kept breaks)
  else ret active_nodes.

(** Lines 365-375: the first node of lowest demerits from [i_min] on. *)
Fixpoint min_demerits_node (i_min : Breakpoint) (rest : BreakpointList)
    : Breakpoint :=
  match rest with
  | [] => i_min
  | b :: rest' =>
      if (demerits b <? demerits i_min)%Z then min_demerits_node b rest'
      else min_demerits_node i_min rest'
  end.

(** Lines 362-375; [begin()] of an empty list is dereferenced at once. *)
Definition lowest_demerits (active_nodes : BreakpointList) : result Breakpoint :=
  match active_nodes with
  | [] => raise DerefEndIterator
  | a :: rest => ret (min_demerits_node a rest)
  end.

(** Lines 380-384: the positions along the [previous] pointers. *)
Fixpoint back_chain (b : Breakpoint) : BreaksList :=
  position b ::
  match previous b with
  | Some b' => back_chain b'
  | None => []
  end.

(** Lines 379-385. *)
Definition build_final_breaks (i_min : Breakpoint) : BreaksList :=
  rev (back_chain i_min).

(** The for loop of lines 296-389 over the positions that are left. *)
Fixpoint scan (positions : list nat) (active_nodes : BreakpointList)
    (final_breaks : BreaksList) : result (BreakpointList * BreaksList) :=
  match positions with
  | [] => ret (active_nodes, final_breaks)
  | i :: rest =>
      active1 <- scan_position i active_nodes ;;
      i_min <- lowest_demerits active1 ;;
      scan rest active1 (build_final_breaks i_min)
  end.

End Scan.

(** [vector<size_t> compute_breaks(const vector<Length> &line_lengths,
    double tolerance = 1, double fitness_demerit = 100,
    double flagged_demerit = 100)] *)
Definition compute_breaks (pb : t B) (line_lengths : list Length)
    (tolerance fitness_demerit flagged_demerit : double) : outcome :=
  let m := length (m_nodes pb) in
  if (m =? 0)%nat then Returned []
  else
    let p := map node_penalty (m_nodes pb) in
    let f := map node_flagged (m_nodes pb) in
    match scan (precompute_sums pb) p f line_lengths
               tolerance fitness_demerit flagged_demerit
               (seq 0 m) [sentinel] [] with
    | inl why => Undefined why
    | inr (active_nodes, final_breaks) => NoReturn active_nodes final_breaks
    end.

End Breaks.

End ParBox.

#[export] Instance ParBox_Box (B : Type) `{Box B} : Box (ParBox.t B) := {
  width := @ParBox.m_width B;
  ascent := @ParBox.m_ascent B;
  descent := @ParBox.m_descent B;
  voff := @ParBox.m_voff B;
  calc_layout := ParBox.calc_layout;
  place := @ParBox.place B
}.

(** * Specification predicates *)

Section Predicates.
Context {B : Type} `{Box B} `{Sentinels}.

(** The condition of the comment of lines 155-156, on the node list. *)
Definition breakable (nodes : list (LayoutNode B)) (i : nat) : Prop :=
  (exists p, nth_error nodes i = Some (PenaltyNode p)
             /\ Penalty.penalty p < Penalty_infinity)
  \/ ((0 < i)%nat
      /\ (exists g, nth_error nodes i = Some (GlueNode g))
      /\ (exists b, nth_error nodes (i - 1) = Some (BoxNode b))).

End Predicates.

Section Locals.
Context {B : Type} `{Box B}.
Variables vspacing hspacing width_hint height_hint : Length.

(** The locals after the walk over [nodes], from the initial values. *)
Definition locals_after (nodes : list (LayoutNode B)) : ParBox.Walk.t :=
  fst (ParBox.layout_nodes vspacing hspacing width_hint height_hint
                           ParBox.Walk.start nodes).

End Locals.

(** Two breakpoints with the same (line number, fitness class, position). *)
Definition same_triple (a b : ParBox.Breakpoint) : Prop :=
  ParBox.line a = ParBox.line b
  /\ ParBox.fitness_class a = ParBox.fitness_class b
  /\ ParBox.position a = ParBox.position b.

Definition line_le (a b : ParBox.Breakpoint) : Prop :=
  (ParBox.line a <= ParBox.line b)%nat.

(** Line numbers never decrease along the list. *)
Definition sorted_by_line (l : ParBox.BreakpointList) : Prop :=
  StronglySorted line_le l.

(** No two entries share their triple. *)
Definition distinct_triples (l : ParBox.BreakpointList) : Prop :=
  ForallOrdPairs (fun a b => ~ same_triple a b) l.

Definition working_set_ok (l : ParBox.BreakpointList) : Prop :=
  sorted_by_line l /\ distinct_triples l.

(** [l'] is [l] with some of its elements erased. *)
Inductive erased {A : Type} : list A -> list A -> Prop :=
| erased_nil : erased [] []
| erased_keep (a : A) (l l' : list A) : erased l l' -> erased (a :: l) (a :: l')
| erased_drop (a : A) (l l' : list A) : erased l l' -> erased (a :: l) l'.

(** * Example inputs *)

Definition example_sentinels : Sentinels :=
  {| Glue_infinity := 10000; Penalty_infinity := 10000 |}.

Definition fixed_box (w a d : Length) : LayoutNode FixedBox :=
  BoxNode {| fb_width := w; fb_ascent := a; fb_descent := d;
             fb_x := 0; fb_y := 0 |}.

Definition glue_node (w y z : Length) : LayoutNode FixedBox :=
  GlueNode (Glue.make w y z).

Definition penalty_node (cost : double) (flagged : bool) (w : Length)
    : LayoutNode FixedBox :=
  PenaltyNode (Penalty.make cost flagged w).

(** A paragraph of fixed boxes, glue and penalties. *)
Definition paragraph (nodes : list (LayoutNode FixedBox))
    (vspacing hspacing : Length) : ParBox.t FixedBox :=
  ParBox.create nodes vspacing hspacing.

(** A single box. *)
Definition one_box : ParBox.t FixedBox :=
  paragraph [fixed_box 10 8 2] 12 5.

(** A stretchable glue, a box and a glue where the line may be broken. *)
Definition loose_line : ParBox.t FixedBox :=
  paragraph [glue_node 0 45 0; fixed_box 10 8 2; glue_node 5 0 0] 12 5.

(** The same with a second stretchable glue, box and break opportunity. *)
Definition two_loose_lines : ParBox.t FixedBox :=
  paragraph [glue_node 0 45 0; fixed_box 10 8 2; glue_node 5 45 0;
             fixed_box 10 8 2; glue_node 5 0 0] 12 5.

(** A box of width 50 with 10 of shrink before it, for lines of length 30. *)
Definition overfull_line : ParBox.t FixedBox :=
  paragraph [glue_node 0 0 10; fixed_box 50 8 2; glue_node 5 0 0] 12 5.

(** A box followed by a forced break. *)
Definition forced_line : ParBox.t FixedBox :=
  paragraph [fixed_box 10 8 2; penalty_node (-10000) false 0] 12 5.

(** Content of width 90 with 20 of stretch, for lines of length 100. *)
Definition ninety_of_hundred : ParBox.t FixedBox :=
  paragraph [glue_node 0 20 0; fixed_box 90 8 2; glue_node 5 0 0] 12 5.

(** Boxes of widths 30, 40, 20 and 50, horizontal spacing 5. *)
Definition four_boxes : ParBox.t FixedBox :=
  paragraph [fixed_box 30 8 2; fixed_box 40 9 3; fixed_box 20 7 1;
             fixed_box 50 6 4] 12 5.

(** A first box wider than a hint of 80. *)
Definition wide_first_box : ParBox.t FixedBox :=
  paragraph [glue_node 3 0 0; fixed_box 100 8 2; fixed_box 20 9 1] 12 5.

(** A line that fits exactly, for lines of length 10. *)
Definition exact_line : ParBox.t FixedBox :=
  paragraph [glue_node 0 10 0; fixed_box 10 8 2; glue_node 5 0 0] 12 5.


(** Content of width 80, 20 of stretch, and a penalty of width 10 where
    the line is broken. *)
Definition hyphen_line : ParBox.t FixedBox :=
  paragraph [glue_node 0 20 0; fixed_box 80 8 2; penalty_node 0 false 10] 12 5.

(** The boxes of [four_boxes] with negative ascents and descents. *)
Definition four_sunk_boxes : ParBox.t FixedBox :=
  paragraph [fixed_box 30 (-8) (-2); fixed_box 40 (-9) (-3);
             fixed_box 20 (-7) (-1); fixed_box 50 (-6) (-4)] 12 5.

(** * Predicates of the further properties *)

Definition is_box {B : Type} (n : LayoutNode B) : bool :=
  NodeType_eqb (type n) box.

(** How [calc_layout] may turn the child [n] into [n']: a box is measured with
    the hints and placed either at the left edge or so that it ends within
    [width_hint]; glue and penalties are left as they are. *)
Definition placed {B : Type} `{Box B} (width_hint height_hint : Length)
    (n n' : LayoutNode B) : Prop :=
  match n with
  | BoxNode b =>
      let b1 := calc_layout b width_hint height_hint in
      exists x y : Length,
        n' = BoxNode (place b1 x y)
        /\ (x = 0 \/ x + width b1 <= width_hint)
  | _ => n' = n
  end.

(** The contract of the Box interface that the paragraph relies on:
    [place] only records the offset, measuring is not affected by the
    placement, and measuring twice with the same hints changes nothing. *)
Class LawfulBox (B : Type) `{Box B} : Prop := {
  place_keeps_width : forall (b : B) x y, width (place b x y) = width b;
  place_keeps_ascent : forall (b : B) x y, ascent (place b x y) = ascent b;
  place_keeps_descent : forall (b : B) x y, descent (place b x y) = descent b;
  place_place : forall (b : B) x y x' y',
    place (place b x y) x' y' = place b x' y';
  calc_layout_place : forall (b : B) x y w h,
    calc_layout (place b x y) w h = place (calc_layout b w h) x y;
  calc_layout_twice : forall (b : B) w h,
    calc_layout (calc_layout b w h) w h = calc_layout b w h
}.

Arguments LawfulBox B {_}.

(** An entry of the working set is the sentinel or a breakpoint recorded by
    the scan, of line number and demerits at least 1. *)
Definition sentinel_or_recorded (b : ParBox.Breakpoint) : Prop :=
  b = ParBox.sentinel
  \/ ((1 <= ParBox.line b)%nat /\ (1 <= ParBox.demerits b)%Z).

(** The faults that a call of [compute_breaks] can run into. *)
Definition possible_fault (line_lengths : list Length) (why : fault) : Prop :=
  why = DerefEndIterator
  \/ why = IntOutOfRange
  \/ (why = BackOfEmptyVector /\ line_lengths = []).

(** The breakpoint [brk] recorded at position [i] for the active node [a]. *)
Definition extends (i : nat) (a brk : ParBox.Breakpoint) : Prop :=
  ParBox.position brk = i
  /\ ParBox.line brk = (ParBox.line a + 1)%nat
  /\ ParBox.previous brk = None.

(** Two boxes, as the box children of [wide_first_box]. *)
Definition two_boxes : ParBox.t FixedBox :=
  paragraph [fixed_box 100 8 2; fixed_box 20 9 1] 12 5.

(** A paragraph without box children. *)
Definition only_glue : ParBox.t FixedBox :=
  paragraph [glue_node 3 0 0; penalty_node 50 false 0] 12 5.

(** * Properties *)

(** ** Comparisons *)

Lemma Qltb_lt (a b : Q) : Qltb a b = true <-> a < b.
Proof.
  unfold Qltb. rewrite negb_true_iff.
  split; intro E.
  - apply Qnot_le_lt. intro L. apply Qle_bool_iff in L. congruence.
  - destruct (Qle_bool b a) eqn:L; [|reflexivity].
    apply Qle_bool_iff in L. exfalso. apply (Qlt_not_le _ _ E L).
Qed.

Lemma Qltb_ge (a b : Q) : Qltb a b = false <-> b <= a.
Proof.
  unfold Qltb. rewrite negb_false_iff. apply Qle_bool_iff.
Qed.

Lemma Qleb_le (a b : Q) : Qleb a b = true <-> a <= b.
Proof. apply Qle_bool_iff. Qed.

Lemma Qleb_gt (a b : Q) : Qleb a b = false <-> b < a.
Proof.
  unfold Qleb. split; intro E.
  - apply Qnot_le_lt. intro L. apply Qle_bool_iff in L. congruence.
  - destruct (Qle_bool a b) eqn:L; [|reflexivity].
    apply Qle_bool_iff in L. exfalso. apply (Qlt_not_le _ _ E L).
Qed.

(** Case analysis on a comparison of the code, leaving the order fact. *)
Ltac case_cmp :=
  match goal with
  | |- context [Qltb ?a ?b] =>
      let E := fresh "E" in
      destruct (Qltb a b) eqn:E;
      [apply Qltb_lt in E | apply Qltb_ge in E]
  | |- context [Qleb ?a ?b] =>
      let E := fresh "E" in
      destruct (Qleb a b) eqn:E;
      [apply Qleb_le in E | apply Qleb_gt in E]
  end.

(** ** Vectors *)

Lemma at_index_some {A : Type} (v : list A) (i : nat) :
  (i < length v)%nat -> exists a, at_index v i = ret a /\ nth_error v i = Some a.
Proof.
  intro L. unfold at_index.
  destruct (nth_error v i) eqn:E.
  - eauto.
  - apply nth_error_None in E. lia.
Qed.

Lemma at_index_ret {A : Type} (v : list A) (i : nat) (a : A) :
  at_index v i = ret a <-> nth_error v i = Some a.
Proof.
  unfold at_index, ret, raise.
  destruct (nth_error v i); split; intro E; inversion E; reflexivity.
Qed.

Lemma at_index_nth {A : Type} (v : list A) (i : nat) (d : A) :
  (i < length v)%nat -> at_index v i = ret (nth i v d).
Proof.
  intro L. apply at_index_ret. apply nth_error_nth'. exact L.
Qed.

Lemma back_last {A : Type} (v : list A) (d : A) :
  v <> [] -> back v = ret (last v d).
Proof.
  intro N. unfold back.
  destruct (exists_last N) as [l [a ->]].
  rewrite rev_app_distr, last_last. reflexivity.
Qed.

(** ** Feasible breakpoints *)

Section FeasibleBreakpoints.
Context {B : Type} `{Box B} `{Sentinels}.

(** C8.  [is_feasible_breakpoint(i)] is true exactly when node [i] is a
    penalty of cost strictly below the infinity sentinel, or [i > 0], node
    [i] is a glue and node [i-1] is a box; and it does return a boolean at
    every index of the node list. *)
Theorem is_feasible_breakpoint_iff (pb : ParBox.t B) (i : nat) :
  (ParBox.is_feasible_breakpoint pb i = ret true
   <-> breakable (ParBox.m_nodes pb) i)
  /\ ((i < length (ParBox.m_nodes pb))%nat ->
      exists b, ParBox.is_feasible_breakpoint pb i = ret b).
Proof.
  unfold ParBox.is_feasible_breakpoint, breakable.
  split.
  - unfold at_index at 1.
    destruct (nth_error (ParBox.m_nodes pb) i) as [node|] eqn:En; simpl.
    + destruct node as [b|g|p]; simpl.
      * rewrite andb_false_r. split; [discriminate|].
        intros [[p [E _]] | [_ [[g E] _]]]; discriminate.
      * rewrite andb_true_r.
        destruct (0 <? i)%nat eqn:Ei.
        -- apply Nat.ltb_lt in Ei. unfold at_index.
           destruct (nth_error (ParBox.m_nodes pb) (i - 1)) as [prev|] eqn:Ep;
             simpl.
           ++ destruct prev as [b|g'|p']; simpl.
              ** split; [intros _|reflexivity].
                 right. repeat split; eauto.
              ** split; [discriminate|].
                 intros [[p [E _]] | [_ [_ [b E]]]]; discriminate.
              ** split; [discriminate|].
                 intros [[p [E _]] | [_ [_ [b E]]]]; discriminate.
           ++ split; [discriminate|].
              intros [[p [E _]] | [_ [_ [b E]]]]; discriminate.
        -- apply Nat.ltb_ge in Ei. split; [discriminate|].
           intros [[p [E _]] | [L _]]; [discriminate|lia].
      * case_cmp.
        -- split; [intros _|reflexivity]. left. eauto.
        -- split; [discriminate|].
           intros [[p' [E' L]] | [_ [[g E'] _]]]; [|discriminate].
           inversion E'; subst p'. exfalso. apply (Qlt_not_le _ _ L E).
    + split; [discriminate|].
      intros [[p [E _]] | [_ [[g E] _]]]; discriminate.
  - intro L.
    destruct (at_index_some (ParBox.m_nodes pb) L) as [node [-> En]]; simpl.
    destruct node as [b|g|p]; simpl.
    + rewrite andb_false_r. eauto.
    + rewrite andb_true_r. destruct (0 <? i)%nat eqn:Ei; [|eauto].
      assert (Lp : (i - 1 < length (ParBox.m_nodes pb))%nat) by lia.
      destruct (at_index_some (ParBox.m_nodes pb) Lp) as [prev [-> _]]; simpl.
      destruct (NodeType_eqb (type prev) box); eauto.
    + destruct (Qltb (Penalty.penalty p) Penalty_infinity); eauto.
Qed.

End FeasibleBreakpoints.

(** ** The adjustment ratio *)

Section AdjustmentRatio.
Context {B : Type} `{Box B} `{Sentinels}.

Lemma measure_defined (sums : list Length) (i1 i2 : nat) :
  (i1 < length sums)%nat -> (i2 < length sums)%nat ->
  (s2 <- at_index sums i2 ;; s1 <- at_index sums i1 ;; ret (s2 - s1))
  = ret (nth i2 sums 0 - nth i1 sums 0).
Proof.
  intros L1 L2.
  rewrite (at_index_nth sums 0 L2), (at_index_nth sums 0 L1). reflexivity.
Qed.

Lemma available_length_defined (line : nat) (line_lengths : list Length) :
  line_lengths <> [] ->
  ParBox.available_length line line_lengths
  = ret (if (line <? length line_lengths)%nat then nth line line_lengths 0
         else last line_lengths 0).
Proof.
  intro N. unfold ParBox.available_length.
  destruct (line <? length line_lengths)%nat eqn:E.
  - apply Nat.ltb_lt in E. apply at_index_nth. exact E.
  - apply back_last. exact N.
Qed.

(** The branches of lines 212-230, for a line of length [len]. *)
Lemma ratio_branches (len avail y z : Q) :
  exists r : Q,
    (if Qltb len avail
     then stretch <- ret y ;;
          if Qltb 0 stretch then ret ((avail - len) / stretch)
          else ret Glue_infinity
     else if Qltb avail len
          then shrink <- ret z ;;
               if Qltb 0 shrink then ret ((avail - len) / shrink)
               else ret Glue_infinity
          else ret 0) = ret r
    /\ (len < avail -> 0 < y -> r = (avail - len) / y)
    /\ (len < avail -> y <= 0 -> r = Glue_infinity)
    /\ (avail < len -> 0 < z -> r = (avail - len) / z)
    /\ (avail < len -> z <= 0 -> r = Glue_infinity)
    /\ (len == avail -> r = 0)
    /\ (len == 90 -> avail == 100 -> y == 20 ->
        r == 1 # 2 /\ ParBox.fitness r = 1%Z).
Proof.
  cbn [bind ret].
  assert (Half : forall r : Q, r == 1 # 2 -> ParBox.fitness r = 1%Z).
  { intros r R. unfold ParBox.fitness. repeat case_cmp; try reflexivity; lra. }
  assert (Ex : len == 90 -> avail == 100 -> y == 20 ->
               (avail - len) / y == 1 # 2).
  { intros E90 E100 E20. rewrite E90, E100, E20. reflexivity. }
  repeat case_cmp.
  - exists ((avail - len) / y).
    split; [reflexivity|]. split; [reflexivity|].
    split; [intros; lra|]. split; [intros; lra|]. split; [intros; lra|].
    split; [intros; lra|]. intros E90 E100 E20. auto.
  - exists Glue_infinity.
    split; [reflexivity|]. split; [intros; lra|].
    split; [reflexivity|]. split; [intros; lra|]. split; [intros; lra|].
    split; [intros; lra|]. intros E90 E100 E20. lra.
  - exists ((avail - len) / z).
    split; [reflexivity|]. split; [intros; lra|]. split; [intros; lra|].
    split; [reflexivity|]. split; [intros; lra|].
    split; [intros; lra|]. intros E90 E100 E20. lra.
  - exists Glue_infinity.
    split; [reflexivity|]. split; [intros; lra|]. split; [intros; lra|].
    split; [intros; lra|]. split; [reflexivity|].
    split; [intros; lra|]. intros E90 E100 E20. lra.
  - exists 0.
    split; [reflexivity|]. split; [intros; lra|]. split; [intros; lra|].
    split; [intros; lra|]. split; [intros; lra|].
    split; [reflexivity|]. intros E90 E100 E20. lra.
Qed.

(** C6.  With [i1], [i2] inside the sums, a node at [i2] and
    [line_lengths] not empty, the quantities of [compute_adjustment_ratio]
    are read from the stored sums: the measured width, [stretch_sum] and
    [shrink_sum] are the differences of the entries at [i2] and [i1], [len]
    is the measured width plus the width of the node at [i2] when that node
    is a penalty, and [avail] is [line_lengths[line]] when [line] is in range
    and the last entry otherwise.  The function returns a ratio [r]:
    [(avail-len)/stretch_sum] when [len < avail] and [stretch_sum > 0], the
    infinity sentinel when [len < avail] and [stretch_sum] is 0 (or below),
    [(avail-len)/shrink_sum] when [len > avail] and [shrink_sum > 0], the
    infinity sentinel when [len > avail] and [shrink_sum] is 0 (or below),
    and 0 when [len] equals [avail].  For [len] 90, [avail] 100 and
    [stretch_sum] 20 the ratio is 1/2, of fitness class 1. *)
Theorem compute_adjustment_ratio_cases (pb : ParBox.t B) (i1 i2 line : nat)
    (line_lengths : list Length) (node : LayoutNode B) :
  nth_error (ParBox.m_nodes pb) i2 = Some node ->
  (i1 < length (ParBox.m_sum_widths pb))%nat ->
  (i2 < length (ParBox.m_sum_widths pb))%nat ->
  (i1 < length (ParBox.m_sum_stretch pb))%nat ->
  (i2 < length (ParBox.m_sum_stretch pb))%nat ->
  (i1 < length (ParBox.m_sum_shrink pb))%nat ->
  (i2 < length (ParBox.m_sum_shrink pb))%nat ->
  line_lengths <> [] ->
  let width_sum : Q :=
    nth i2 (ParBox.m_sum_widths pb) 0 - nth i1 (ParBox.m_sum_widths pb) 0 in
  let len : Q :=
    match node with
    | PenaltyNode q => width_sum + Penalty.width q
    | _ => width_sum
    end in
  let stretch_sum : Q :=
    nth i2 (ParBox.m_sum_stretch pb) 0 - nth i1 (ParBox.m_sum_stretch pb) 0 in
  let shrink_sum : Q :=
    nth i2 (ParBox.m_sum_shrink pb) 0 - nth i1 (ParBox.m_sum_shrink pb) 0 in
  let avail : Q :=
    if (line <? length line_lengths)%nat then nth line line_lengths 0
    else last line_lengths 0 in
  ParBox.measure_width pb i1 i2 = ret width_sum
  /\ ParBox.line_length pb i1 i2 = ret len
  /\ ParBox.measure_stretch pb i1 i2 = ret stretch_sum
  /\ ParBox.measure_shrink pb i1 i2 = ret shrink_sum
  /\ ParBox.available_length line line_lengths = ret avail
  /\ exists r : Q,
       ParBox.compute_adjustment_ratio pb i1 i2 line line_lengths = ret r
       /\ (len < avail -> 0 < stretch_sum ->
           r = (avail - len) / stretch_sum)
       /\ (len < avail -> stretch_sum <= 0 -> r = Glue_infinity)
       /\ (avail < len -> 0 < shrink_sum ->
           r = (avail - len) / shrink_sum)
       /\ (avail < len -> shrink_sum <= 0 -> r = Glue_infinity)
       /\ (len == avail -> r = 0)
       /\ (len == 90 -> avail == 100 -> stretch_sum == 20 ->
           r == 1 # 2 /\ ParBox.fitness r = 1%Z).
Proof.
  intros En Lw1 Lw2 Ly1 Ly2 Lz1 Lz2 Nll width_sum len stretch_sum shrink_sum
    avail.
  unfold ParBox.compute_adjustment_ratio, ParBox.line_length,
    ParBox.measure_width, ParBox.measure_stretch, ParBox.measure_shrink.
  rewrite (measure_defined _ Lw1 Lw2), (measure_defined _ Ly1 Ly2),
    (measure_defined _ Lz1 Lz2), (available_length_defined line Nll).
  unfold at_index. rewrite En. cbn [bind ret].
  fold width_sum stretch_sum shrink_sum avail.
  assert (El : (if NodeType_eqb (type node) penalty
                then ret (width_sum + node_width node) else ret width_sum)
               = ret len).
  { unfold len. destruct node; reflexivity. }
  split; [reflexivity|]. split; [exact El|]. split; [reflexivity|].
  split; [reflexivity|]. split; [reflexivity|].
  destruct (ratio_branches len avail stretch_sum shrink_sum) as [r [Er P]].
  exists r. split; [|exact P].
  destruct node as [b|g|q]; cbn [type NodeType_eqb node_width bind ret];
    exact Er.
Qed.

End AdjustmentRatio.

(** ** The greedy layout *)

Section GreedyWalk.
Context {B : Type} `{Box B}.
Variables vspacing hspacing width_hint height_hint : Length.

Lemma layout_nodes_app (st : ParBox.Walk.t) (l1 l2 : list (LayoutNode B)) :
  ParBox.layout_nodes vspacing hspacing width_hint height_hint st (l1 ++ l2)
  = let (st1, l1') :=
      ParBox.layout_nodes vspacing hspacing width_hint height_hint st l1 in
    let (st2, l2') :=
      ParBox.layout_nodes vspacing hspacing width_hint height_hint st1 l2 in
    (st2, l1' ++ l2').
Proof.
  revert st. induction l1 as [|n l1 IH]; intro st; simpl.
  - destruct (ParBox.layout_nodes _ _ _ _ st l2). reflexivity.
  - destruct (ParBox.layout_node _ _ _ _ st n) as [st1 n1].
    rewrite IH.
    destruct (ParBox.layout_nodes _ _ _ _ st1 l1) as [st2 l1'].
    destruct (ParBox.layout_nodes _ _ _ _ st2 l2) as [st3 l2'].
    reflexivity.
Qed.

Lemma layout_nodes_length (st : ParBox.Walk.t) (l : list (LayoutNode B)) :
  length (snd (ParBox.layout_nodes vspacing hspacing width_hint height_hint
                                   st l)) = length l.
Proof.
  revert st. induction l as [|n l IH]; intro st; simpl; [reflexivity|].
  destruct (ParBox.layout_node _ _ _ _ st n) as [st1 n1].
  specialize (IH st1).
  destruct (ParBox.layout_nodes _ _ _ _ st1 l) as [st2 l']. simpl in *.
  congruence.
Qed.

(** Nodes that are not boxes leave the locals and the nodes as they are. *)
Lemma layout_nodes_no_box (st : ParBox.Walk.t) (l : list (LayoutNode B)) :
  Forall (fun n => type n <> box) l ->
  ParBox.layout_nodes vspacing hspacing width_hint height_hint st l = (st, l).
Proof.
  induction 1 as [|n l Hn _ IH]; simpl; [reflexivity|].
  destruct n as [b|g|p]; simpl in *; [congruence| |]; rewrite IH; reflexivity.
Qed.

(** Once a line has been wrapped, the line counter stays positive and the
    recorded ascent is never touched again. *)
Lemma wrapped_node (st : ParBox.Walk.t) (n : LayoutNode B) :
  (1 <= ParBox.Walk.lines st)%Z ->
  let st' := fst (ParBox.layout_node vspacing hspacing width_hint height_hint
                                     st n) in
  (1 <= ParBox.Walk.lines st')%Z
  /\ ParBox.Walk.ascent st' = ParBox.Walk.ascent st.
Proof.
  intro L. destruct n as [b|g|p]; simpl; [|auto|auto].
  destruct (Qltb width_hint _); simpl.
  - replace (ParBox.Walk.lines st + 1 =? 0)%Z with false
      by (symmetry; apply Z.eqb_neq; lia).
    simpl. split; [lia|reflexivity].
  - replace (ParBox.Walk.lines st =? 0)%Z with false
      by (symmetry; apply Z.eqb_neq; lia).
    simpl. split; [lia|reflexivity].
Qed.

Lemma wrapped_nodes (st : ParBox.Walk.t) (l : list (LayoutNode B)) :
  (1 <= ParBox.Walk.lines st)%Z ->
  let st' := fst (ParBox.layout_nodes vspacing hspacing width_hint height_hint
                                      st l) in
  (1 <= ParBox.Walk.lines st')%Z
  /\ ParBox.Walk.ascent st' = ParBox.Walk.ascent st.
Proof.
  revert st. induction l as [|n l IH]; intros st L; simpl; [auto|].
  destruct (wrapped_node st n L) as [L1 A1].
  destruct (ParBox.layout_node _ _ _ _ st n) as [st1 n1]. simpl in L1, A1.
  destruct (IH st1 L1) as [L2 A2].
  destruct (ParBox.layout_nodes _ _ _ _ st1 l) as [st2 l']. simpl in *.
  split; [exact L2|congruence].
Qed.

(** A first box wider than the hint is wrapped before it is placed. *)
Lemma first_box_wrapped (b : B) :
  width_hint < width (calc_layout b width_hint height_hint) ->
  ParBox.layout_node vspacing hspacing width_hint height_hint
                     ParBox.Walk.start (BoxNode b)
  = let b2 := place (calc_layout b width_hint height_hint) 0 (0 - vspacing) in
    (ParBox.Walk.make (0 + width b2 + hspacing) (0 - vspacing) 1 0
       (if Qltb 0 (descent b2) then descent b2 else 0),
     BoxNode b2).
Proof.
  intro W. unfold ParBox.layout_node. cbn [ParBox.Walk.start ParBox.Walk.x_off].
  assert (E : Qltb width_hint
                (0 + width (calc_layout b width_hint height_hint)) = true).
  { apply Qltb_lt. lra. }
  rewrite E. reflexivity.
Qed.

End GreedyWalk.

Section FirstBoxTooWide.
Context {B : Type} `{Box B}.

(** C10.  When the first box child is wider than [width_hint] (nothing but
    glue and penalties before it), the wrap comes before that box is placed:
    the locals are untouched up to it, it is placed at the left edge of the
    line below, from then on and at every later point of the walk the line
    counter is at least 1 and the recorded ascent is still 0, and the ascent
    of the paragraph is the line count times the vertical spacing. *)
Theorem first_box_wider_than_hint (pb : ParBox.t B)
    (width_hint height_hint : Length)
    (pre rest : list (LayoutNode B)) (b : B) :
  ParBox.m_nodes pb = pre ++ BoxNode b :: rest ->
  Forall (fun n => type n <> box) pre ->
  width_hint < width (calc_layout b width_hint height_hint) ->
  let vs := ParBox.m_vspacing pb in
  let after := locals_after vs (ParBox.m_hspacing pb) width_hint height_hint in
  let pb' := ParBox.calc_layout pb width_hint height_hint in
  after pre = ParBox.Walk.start
  /\ nth_error (ParBox.m_nodes pb') (length pre)
     = Some (BoxNode (place (calc_layout b width_hint height_hint)
                            0 (0 - vs)))
  /\ (forall r1 r2, rest = r1 ++ r2 ->
        (1 <= ParBox.Walk.lines (after (pre ++ BoxNode b :: r1)))%Z
        /\ ParBox.Walk.ascent (after (pre ++ BoxNode b :: r1)) = 0)
  /\ (1 <= ParBox.Walk.lines (ParBox.walk pb width_hint height_hint))%Z
  /\ ParBox.m_ascent pb'
     == inject_Z (ParBox.Walk.lines (ParBox.walk pb width_hint height_hint))
        * vs.
Proof.
  intros Hn Hpre W vs after pb'.
  assert (Hafter : forall r1,
             (1 <= ParBox.Walk.lines (after (pre ++ BoxNode b :: r1)))%Z
             /\ ParBox.Walk.ascent (after (pre ++ BoxNode b :: r1)) = 0).
  { intro r1. unfold after, locals_after.
    rewrite layout_nodes_app, (layout_nodes_no_box _ _ _ _ _ Hpre).
    cbn [ParBox.layout_nodes]. rewrite first_box_wrapped by exact W.
    cbv beta iota zeta.
    match goal with
    | |- context [ParBox.layout_nodes _ _ _ _ ?s r1] =>
        pose proof (wrapped_nodes vs (ParBox.m_hspacing pb) width_hint
                      height_hint s r1) as K;
        destruct (ParBox.layout_nodes vs (ParBox.m_hspacing pb) width_hint
                    height_hint s r1) as [st2 l2]
    end.
    simpl in K |- *. apply K. lia. }
  split; [|split; [|split; [|split]]].
  - unfold after, locals_after.
    rewrite (layout_nodes_no_box _ _ _ _ _ Hpre). reflexivity.
  - unfold pb', ParBox.calc_layout. rewrite Hn, layout_nodes_app.
    rewrite (layout_nodes_no_box _ _ _ _ _ Hpre).
    cbn [ParBox.layout_nodes]. rewrite first_box_wrapped by exact W.
    cbv beta iota zeta.
    destruct (ParBox.layout_nodes _ _ _ _ _ rest) as [st2 l2].
    cbn [ParBox.m_nodes].
    rewrite nth_error_app2 by lia. rewrite Nat.sub_diag. reflexivity.
  - intros r1 r2 _. apply Hafter.
  - unfold ParBox.walk. rewrite Hn. apply (Hafter rest).
  - destruct (Hafter rest) as [_ A]. unfold after, locals_after in A.
    unfold pb', ParBox.calc_layout, ParBox.walk. rewrite Hn in *.
    destruct (ParBox.layout_nodes _ _ _ _ _ (pre ++ BoxNode b :: rest))
      as [st nodes].
    simpl in A |- *. rewrite A. subst vs. apply Qplus_0_l.
Qed.

End FirstBoxTooWide.

Section GreedySteps.
Context {B : Type} `{Box B}.

(** [place] only records the offset (the contract of the Box interface):
    the geometry of the box is what [calc_layout] left. *)
Hypothesis place_width : forall (b : B) x y, width (place b x y) = width b.
Hypothesis place_ascent : forall (b : B) x y, ascent (place b x y) = ascent b.
Hypothesis place_descent :
  forall (b : B) x y, descent (place b x y) = descent b.

Variables vspacing hspacing width_hint height_hint : Length.

Ltac max_cases :=
  repeat match goal with
  | |- context [Qmax ?a ?b] =>
      let M := fresh "M" in
      destruct (Q.max_spec a b) as [[? M]|[? M]];
      revert M; generalize (Qmax a b); intros ? M
  end.

(** A box that fits on the current line. *)
Lemma box_fits (st : ParBox.Walk.t) (b : B) :
  let b1 := calc_layout b width_hint height_hint in
  ParBox.Walk.x_off st + width b1 <= width_hint ->
  exists st',
    ParBox.layout_node vspacing hspacing width_hint height_hint st (BoxNode b)
    = (st', BoxNode (place b1 (ParBox.Walk.x_off st) (ParBox.Walk.y_off st)))
    /\ ParBox.Walk.x_off st' == ParBox.Walk.x_off st + width b1 + hspacing
    /\ ParBox.Walk.y_off st' = ParBox.Walk.y_off st
    /\ ParBox.Walk.lines st' = ParBox.Walk.lines st
    /\ ParBox.Walk.descent st' == Qmax (ParBox.Walk.descent st) (descent b1)
    /\ (ParBox.Walk.lines st = 0%Z ->
        ParBox.Walk.ascent st' == Qmax (ParBox.Walk.ascent st) (ascent b1))
    /\ (ParBox.Walk.lines st <> 0%Z ->
        ParBox.Walk.ascent st' = ParBox.Walk.ascent st).
Proof.
  intros b1 F. unfold ParBox.layout_node. fold b1.
  assert (E : Qltb width_hint (ParBox.Walk.x_off st + width b1) = false)
    by (apply Qltb_ge; exact F).
  rewrite E. eexists. split; [reflexivity|].
  cbn [ParBox.Walk.x_off ParBox.Walk.y_off ParBox.Walk.lines
       ParBox.Walk.ascent ParBox.Walk.descent].
  rewrite place_width, place_ascent, place_descent.
  split; [reflexivity|]. split; [reflexivity|]. split; [reflexivity|].
  split; [|split].
  - case_cmp; max_cases; lra.
  - intros ->. cbn [Z.eqb andb]. case_cmp; max_cases; lra.
  - intro N. apply Z.eqb_neq in N. rewrite N. reflexivity.
Qed.

(** A box that does not fit: the line is wrapped, then the box is placed. *)
Lemma box_wraps (st : ParBox.Walk.t) (b : B) :
  let b1 := calc_layout b width_hint height_hint in
  width_hint < ParBox.Walk.x_off st + width b1 ->
  (0 <= ParBox.Walk.lines st)%Z ->
  exists st',
    ParBox.layout_node vspacing hspacing width_hint height_hint st (BoxNode b)
    = (st', BoxNode (place b1 0 (ParBox.Walk.y_off st - vspacing)))
    /\ ParBox.Walk.x_off st' == width b1 + hspacing
    /\ ParBox.Walk.y_off st' = ParBox.Walk.y_off st - vspacing
    /\ ParBox.Walk.lines st' = (ParBox.Walk.lines st + 1)%Z
    /\ ParBox.Walk.descent st' == Qmax 0 (descent b1)
    /\ ParBox.Walk.ascent st' = ParBox.Walk.ascent st.
Proof.
  intros b1 F L. unfold ParBox.layout_node. fold b1.
  assert (E : Qltb width_hint (ParBox.Walk.x_off st + width b1) = true)
    by (apply Qltb_lt; exact F).
  rewrite E. eexists. split; [reflexivity|].
  cbn [ParBox.wrap ParBox.Walk.x_off ParBox.Walk.y_off ParBox.Walk.lines
       ParBox.Walk.ascent ParBox.Walk.descent].
  rewrite place_width, place_descent.
  split; [ring|]. split; [reflexivity|]. split; [reflexivity|].
  split.
  - case_cmp; max_cases; lra.
  - replace (ParBox.Walk.lines st + 1 =? 0)%Z with false
      by (symmetry; apply Z.eqb_neq; lia).
    reflexivity.
Qed.

End GreedySteps.

Section GreedyExample.
Context {B : Type} `{Box B}.

Hypothesis place_width : forall (b : B) x y, width (place b x y) = width b.
Hypothesis place_ascent : forall (b : B) x y, ascent (place b x y) = ascent b.
Hypothesis place_descent :
  forall (b : B) x y, descent (place b x y) = descent b.

(** C9, as amended.  Four box children that measure 30, 40, 20 and 50
    wide, horizontal spacing 5, [width_hint] 80: the first two boxes are
    placed on the first line, at 0 and at 35; the wrap comes before the third
    box, which starts the second and last line, where the fourth follows at
    25; the line counter ends at 1.  The running maxima start from 0, so the
    descent of the paragraph is the largest of 0 and the descents of the
    boxes of the last line, and its ascent the largest of 0 and the ascents
    of the boxes of the first line, plus one vertical spacing; these are the
    plain maxima over the line when a box of the line has a descent (an
    ascent) that is not negative.  The width is the hint. *)
Theorem calc_layout_four_boxes (pb : ParBox.t B) (b1 b2 b3 b4 : B)
    (width_hint height_hint : Length) :
  let c1 := calc_layout b1 width_hint height_hint in
  let c2 := calc_layout b2 width_hint height_hint in
  let c3 := calc_layout b3 width_hint height_hint in
  let c4 := calc_layout b4 width_hint height_hint in
  let vs := ParBox.m_vspacing pb in
  let pb' := ParBox.calc_layout pb width_hint height_hint in
  ParBox.m_nodes pb = [BoxNode b1; BoxNode b2; BoxNode b3; BoxNode b4] ->
  ParBox.m_hspacing pb == 5 ->
  width_hint == 80 ->
  width c1 == 30 -> width c2 == 40 -> width c3 == 20 -> width c4 == 50 ->
  (exists x2 x4 : Length,
      ParBox.m_nodes pb'
      = [BoxNode (place c1 0 0); BoxNode (place c2 x2 0);
         BoxNode (place c3 0 (0 - vs)); BoxNode (place c4 x4 (0 - vs))]
      /\ x2 == 35 /\ x4 == 25)
  /\ ParBox.Walk.lines (ParBox.walk pb width_hint height_hint) = 1%Z
  /\ ParBox.m_descent pb' == Qmax 0 (Qmax (descent c3) (descent c4))
  /\ (0 <= descent c3 \/ 0 <= descent c4 ->
      ParBox.m_descent pb' == Qmax (descent c3) (descent c4))
  /\ ParBox.m_ascent pb' == Qmax 0 (Qmax (ascent c1) (ascent c2)) + vs
  /\ (0 <= ascent c1 \/ 0 <= ascent c2 ->
      ParBox.m_ascent pb' == Qmax (ascent c1) (ascent c2) + vs)
  /\ ParBox.m_multiline_shift pb' == vs
  /\ ParBox.m_width pb' = width_hint.
Proof.
  intros c1 c2 c3 c4 vs pb' Hn Hs Hw W1 W2 W3 W4.
  unfold pb', ParBox.calc_layout, ParBox.walk. rewrite Hn.
  cbn [ParBox.layout_nodes]. fold vs.
  set (hs := ParBox.m_hspacing pb) in *.
  (* first box *)
  destruct (@box_fits B _ place_width place_ascent place_descent
              vs hs width_hint height_hint ParBox.Walk.start b1)
    as [s1 [E1 [X1 [Y1 [L1 [De1 [As1 _]]]]]]].
  { fold c1. cbn [ParBox.Walk.start ParBox.Walk.x_off]. lra. }
  fold c1 in E1, X1, De1, As1. rewrite E1.
  cbn [ParBox.Walk.start ParBox.Walk.x_off ParBox.Walk.y_off
       ParBox.Walk.lines ParBox.Walk.ascent ParBox.Walk.descent]
    in X1, Y1, L1, De1, As1.
  specialize (As1 eq_refl).
  (* second box *)
  destruct (@box_fits B _ place_width place_ascent place_descent
              vs hs width_hint height_hint s1 b2)
    as [s2 [E2 [X2 [Y2 [L2 [De2 [As2 _]]]]]]].
  { fold c2. lra. }
  fold c2 in E2, X2, De2, As2. rewrite E2.
  specialize (As2 L1).
  (* third box: the wrap *)
  destruct (@box_wraps B _ place_width place_descent
              vs hs width_hint height_hint s2 b3)
    as [s3 [E3 [X3 [Y3 [L3 [De3 As3]]]]]].
  { fold c3. lra. }
  { lia. }
  fold c3 in E3, X3, De3. rewrite E3.
  (* fourth box *)
  destruct (@box_fits B _ place_width place_ascent place_descent
              vs hs width_hint height_hint s3 b4)
    as [s4 [E4 [X4 [Y4 [L4 [De4 [_ As4]]]]]]].
  { fold c4. lra. }
  fold c4 in E4, X4, De4. rewrite E4.
  assert (N3 : ParBox.Walk.lines s3 <> 0%Z) by lia.
  specialize (As4 N3).
  cbn [fst ParBox.m_nodes ParBox.m_descent ParBox.m_ascent
       ParBox.m_multiline_shift ParBox.m_width].
  assert (L : ParBox.Walk.lines s4 = 1%Z) by lia.
  rewrite L. fold vs.
  assert (D : ParBox.Walk.descent s4
              == Qmax 0 (Qmax (descent c3) (descent c4))).
  { rewrite De4.
    transitivity (Qmax (Qmax 0 (descent c3)) (descent c4)).
    - apply Q.max_compat; [exact De3|reflexivity].
    - symmetry. apply Q.max_assoc. }
  assert (A : ParBox.Walk.ascent s4
              == Qmax 0 (Qmax (ascent c1) (ascent c2))).
  { rewrite As4, As3, As2.
    transitivity (Qmax (Qmax 0 (ascent c1)) (ascent c2)).
    - apply Q.max_compat; [exact As1|reflexivity].
    - symmetry. apply Q.max_assoc. }
  split; [|split; [|split; [|split; [|split; [|split; [|split]]]]]].
  - exists (ParBox.Walk.x_off s1), (ParBox.Walk.x_off s3).
    rewrite Y1, Y2, Y3, Y2, Y1.
    split; [reflexivity|]. split; lra.
  - reflexivity.
  - exact D.
  - intro N. rewrite D. apply Q.max_r.
    destruct N as [N|N];
      (eapply Qle_trans; [exact N|]); [apply Q.le_max_l|apply Q.le_max_r].
  - rewrite A. ring.
  - intro N. rewrite A.
    assert (M : Qmax 0 (Qmax (ascent c1) (ascent c2))
                == Qmax (ascent c1) (ascent c2)).
    { apply Q.max_r.
      destruct N as [N|N];
        (eapply Qle_trans; [exact N|]); [apply Q.le_max_l|apply Q.le_max_r]. }
    rewrite M. ring.
  - ring.
  - reflexivity.
Qed.

End GreedyExample.

(** ** The working set of active breakpoints *)

Lemma erased_refl {A : Type} (l : list A) : erased l l.
Proof. induction l; constructor; assumption. Qed.

Lemma erased_app {A : Type} (l l' post : list A) :
  erased l l' -> erased (l ++ post) (l' ++ post).
Proof.
  induction 1; simpl.
  - apply erased_refl.
  - apply erased_keep. assumption.
  - apply erased_drop. assumption.
Qed.

Lemma erased_Forall {A : Type} (P : A -> Prop) (l l' : list A) :
  erased l l' -> Forall P l -> Forall P l'.
Proof.
  induction 1; intro F.
  - constructor.
  - inversion F; subst. constructor; auto.
  - inversion F; subst. auto.
Qed.

Lemma erased_sorted (l l' : ParBox.BreakpointList) :
  erased l l' -> sorted_by_line l -> sorted_by_line l'.
Proof.
  unfold sorted_by_line. induction 1; intro S.
  - constructor.
  - apply StronglySorted_inv in S. destruct S as [S F].
    constructor; [auto|]. eapply erased_Forall; eassumption.
  - apply StronglySorted_inv in S. destruct S as [S F]. auto.
Qed.

Lemma erased_distinct (l l' : ParBox.BreakpointList) :
  erased l l' -> distinct_triples l -> distinct_triples l'.
Proof.
  unfold distinct_triples. induction 1; intro D.
  - constructor.
  - inversion D; subst. constructor; [|auto].
    eapply erased_Forall; eassumption.
  - inversion D; subst. auto.
Qed.

Lemma erased_ok (l l' : ParBox.BreakpointList) :
  erased l l' -> working_set_ok l -> working_set_ok l'.
Proof.
  intros E [S D]. split; [eapply erased_sorted|eapply erased_distinct];
    eassumption.
Qed.

Section AddActiveNode.

Lemma add_active_node_In (l : ParBox.BreakpointList) (n x : ParBox.Breakpoint) :
  In x (ParBox.add_active_node l n) -> x = n \/ In x l.
Proof.
  induction l as [|b rest IH]; cbn [ParBox.add_active_node].
  - intros [E|[]]. left. congruence.
  - destruct (ParBox.line b <? ParBox.line n)%nat.
    + intros [E|I]; [right; left; exact E|].
      destruct (IH I); [left|right; right]; assumption.
    + destruct (ParBox.same_line_duplicate (b :: rest) n).
      * intro I. right. exact I.
      * intros [E|I]; [left; congruence|right; exact I].
Qed.

(** When the second loop finds nothing in a sorted list whose lines are not
    below the one of [n], no entry has the triple of [n]. *)
Lemma no_duplicate_found (l : ParBox.BreakpointList) (n : ParBox.Breakpoint) :
  sorted_by_line l ->
  Forall (line_le n) l ->
  ParBox.same_line_duplicate l n = false ->
  Forall (fun x => ~ same_triple n x) l.
Proof.
  unfold sorted_by_line, line_le.
  induction l as [|b rest IH]; intros S F D; [constructor|].
  apply StronglySorted_inv in S. destruct S as [S Fb].
  inversion F as [|? ? Lb Fr]; subst. simpl in D.
  destruct (ParBox.line b =? ParBox.line n)%nat eqn:El.
  - destruct ((ParBox.fitness_class b =? ParBox.fitness_class n)%Z
              && (ParBox.position b =? ParBox.position n)%nat)%bool eqn:Ek;
      [discriminate|].
    constructor; [|auto].
    intros [_ [Ef Ep]].
    apply andb_false_iff in Ek. destruct Ek as [Ek|Ek].
    + apply Z.eqb_neq in Ek. congruence.
    + apply Nat.eqb_neq in Ek. congruence.
  - apply Nat.eqb_neq in El.
    constructor.
    + intros [E _]. congruence.
    + rewrite Forall_forall in *. intros x Ix [E _].
      specialize (Fb x Ix). unfold line_le in Fb. lia.
Qed.

(** When some entry of a sorted list whose lines are not below the one of
    [n] has the triple of [n], the second loop finds one. *)
Lemma duplicate_found (l : ParBox.BreakpointList) (n b : ParBox.Breakpoint) :
  sorted_by_line l ->
  Forall (line_le n) l ->
  In b l -> same_triple b n ->
  ParBox.same_line_duplicate l n = true.
Proof.
  unfold sorted_by_line, line_le.
  induction l as [|b0 rest IH]; intros S F I T; [destruct I|].
  apply StronglySorted_inv in S. destruct S as [S Fb].
  inversion F as [|? ? Lb Fr]; subst. simpl.
  destruct T as [Tl [Tf Tp]].
  destruct (ParBox.line b0 =? ParBox.line n)%nat eqn:El.
  - destruct ((ParBox.fitness_class b0 =? ParBox.fitness_class n)%Z
              && (ParBox.position b0 =? ParBox.position n)%nat)%bool eqn:Ek;
      [reflexivity|].
    destruct I as [E|I].
    + subst b0. rewrite Tf, Tp, Z.eqb_refl, Nat.eqb_refl in Ek. discriminate.
    + apply IH; auto. repeat split; assumption.
  - apply Nat.eqb_neq in El. exfalso.
    destruct I as [E|I].
    + subst b0. congruence.
    + rewrite Forall_forall in Fb. specialize (Fb b I).
      unfold line_le in Fb. lia.
Qed.

Lemma add_active_node_ok (l : ParBox.BreakpointList) (n : ParBox.Breakpoint) :
  working_set_ok l -> working_set_ok (ParBox.add_active_node l n).
Proof.
  unfold working_set_ok, sorted_by_line, distinct_triples.
  induction l as [|b rest IH]; intros [S D].
  - simpl. split; repeat constructor.
  - pose proof S as S0.
    apply StronglySorted_inv in S. destruct S as [S Fb].
    inversion D as [|? ? Db Dr]; subst.
    cbn [ParBox.add_active_node].
    destruct (ParBox.line b <? ParBox.line n)%nat eqn:El.
    + apply Nat.ltb_lt in El.
      destruct (IH (conj S Dr)) as [S' D'].
      split; constructor; try assumption.
      * rewrite Forall_forall in *. intros x Ix.
        destruct (add_active_node_In _ _ _ Ix) as [->|I];
          [unfold line_le; lia|auto].
      * rewrite Forall_forall in *. intros x Ix.
        destruct (add_active_node_In _ _ _ Ix) as [->|I]; [|auto].
        intros [E _]. lia.
    + apply Nat.ltb_ge in El.
      destruct (ParBox.same_line_duplicate (b :: rest) n) eqn:Ed.
      * split; [exact S0|exact D].
      * assert (Fn : Forall (line_le n) (b :: rest)).
        { constructor; [exact El|].
          rewrite Forall_forall in *. intros x Ix.
          specialize (Fb x Ix). unfold line_le in *. lia. }
        split; constructor; try assumption.
        apply no_duplicate_found; assumption.
Qed.

(** First seen wins: a node whose triple is already in the sorted working
    set is dropped. *)
Lemma add_active_node_duplicate (l : ParBox.BreakpointList)
    (n b : ParBox.Breakpoint) :
  sorted_by_line l -> In b l -> same_triple b n ->
  ParBox.add_active_node l n = l.
Proof.
  unfold sorted_by_line.
  induction l as [|b0 rest IH]; intros S I T; [destruct I|].
  pose proof S as S0.
  apply StronglySorted_inv in S. destruct S as [S Fb].
  cbn [ParBox.add_active_node].
  destruct (ParBox.line b0 <? ParBox.line n)%nat eqn:El.
  - apply Nat.ltb_lt in El. f_equal.
    destruct I as [E|I].
    + subst b0. destruct T as [Tl _]. lia.
    + apply IH; assumption.
  - apply Nat.ltb_ge in El.
    assert (Fn : Forall (line_le n) (b0 :: rest)).
    { constructor; [exact El|].
      rewrite Forall_forall in *. intros x Ix.
      specialize (Fb x Ix). unfold line_le in *. lia. }
    rewrite (duplicate_found (n:=n) (b:=b) S0 Fn I T). reflexivity.
Qed.

Lemma add_breaks_ok (breaks l : ParBox.BreakpointList) :
  working_set_ok l -> working_set_ok (ParBox.add_breaks l breaks).
Proof.
  unfold ParBox.add_breaks. revert l.
  induction breaks as [|n breaks IH]; intros l K; simpl; [exact K|].
  apply IH. apply add_active_node_ok. exact K.
Qed.

End AddActiveNode.

Lemma bind_ret_inv {A C : Type} (m : result A) (k : A -> result C) (c : C) :
  bind m k = ret c -> exists a, m = ret a /\ k a = ret c.
Proof.
  destruct m as [e|a]; simpl; intro E; [discriminate|eauto].
Qed.

Tactic Notation "bind_inv" hyp(E) "as" ident(a) ident(Ea) :=
  apply bind_ret_inv in E; destruct E as [a [Ea E]].

Section WorkingSet.
Context {B : Type} `{Box B} `{Sentinels}.
Variable pb : ParBox.t B.
Variables (p : list double) (f : list bool).
Variable line_lengths : list Length.
Variables tolerance fitness_demerit flagged_demerit : double.

(** The while loop only erases active nodes. *)
Lemma scan_active_erased (i : nat) (active kept breaks : ParBox.BreakpointList) :
  ParBox.scan_active pb p f line_lengths tolerance fitness_demerit
                     flagged_demerit i active = ret (kept, breaks) ->
  erased active kept.
Proof.
  revert kept breaks.
  induction active as [|a rest IH]; intros kept breaks E; simpl in E.
  - inversion E. constructor.
  - bind_inv E as r Er. bind_inv E as erase Ee.
    destruct erase.
    + apply erased_drop. eapply IH. exact E.
    + destruct (chained_le (-1) r tolerance).
      * bind_inv E as brk Eb. bind_inv E as kb Ek.
        destruct kb as [kept' breaks'].
        inversion E; subst. apply erased_keep. eapply IH. exact Ek.
      * bind_inv E as kb Ek. destruct kb as [kept' breaks'].
        inversion E; subst. apply erased_keep. eapply IH. exact Ek.
Qed.

Lemma scan_position_ok (i : nat) (active active' : ParBox.BreakpointList) :
  ParBox.scan_position pb p f line_lengths tolerance fitness_demerit
                       flagged_demerit i active = ret active' ->
  working_set_ok active -> working_set_ok active'.
Proof.
  unfold ParBox.scan_position. intros E K.
  bind_inv E as feasible Ef. destruct feasible.
  - bind_inv E as kb Ek. destruct kb as [kept breaks]. inversion E; subst.
    apply add_breaks_ok. eapply erased_ok; [|exact K].
    eapply scan_active_erased. exact Ek.
  - inversion E; subst. exact K.
Qed.

Lemma scan_ok (positions : list nat) (active active' : ParBox.BreakpointList)
    (fb fb' : ParBox.BreaksList) :
  ParBox.scan pb p f line_lengths tolerance fitness_demerit flagged_demerit
              positions active fb = ret (active', fb') ->
  working_set_ok active -> working_set_ok active'.
Proof.
  revert active fb.
  induction positions as [|i rest IH]; intros active fb E K; simpl in E.
  - inversion E; subst. exact K.
  - bind_inv E as active1 E1. bind_inv E as i_min Em.
    eapply IH; [exact E|]. eapply scan_position_ok; eassumption.
Qed.

(** The loop over the positions, cut in two. *)
Lemma scan_app (l1 l2 : list nat) (active : ParBox.BreakpointList)
    (fb : ParBox.BreaksList) :
  ParBox.scan pb p f line_lengths tolerance fitness_demerit flagged_demerit
              (l1 ++ l2) active fb
  = ('(active1, fb1) <-
       ParBox.scan pb p f line_lengths tolerance fitness_demerit
                   flagged_demerit l1 active fb ;;
     ParBox.scan pb p f line_lengths tolerance fitness_demerit
                 flagged_demerit l2 active1 fb1).
Proof.
  revert active fb.
  induction l1 as [|i l1 IH]; intros active fb; simpl; [reflexivity|].
  destruct (ParBox.scan_position _ _ _ _ _ _ _ i active) as [e|active1];
    simpl; [reflexivity|].
  destruct (ParBox.lowest_demerits active1) as [e|i_min]; simpl;
    [reflexivity|].
  apply IH.
Qed.

Lemma sentinel_ok : working_set_ok [ParBox.sentinel].
Proof. split; repeat constructor. Qed.

End WorkingSet.

Section WorkingSetInvariant.
Context {B : Type} `{Box B} `{Sentinels}.

(** C7.  In a run of [compute_breaks] the working set of active
    breakpoints is sorted by line number and holds no two entries of the same
    (line number, fitness class, position): at the start, after every turn
    of the loop over the positions, inside the while loop that erases active
    nodes (after any part [pre] of the working set has been visited), and
    after each call of [add_active_node] (after any part [done] of the new
    breakpoints has been added), and so at the end of the run.  A new node
    whose triple is already in such a working set is dropped: the working set
    is unchanged. *)
Theorem working_set_invariant (pb : ParBox.t B) (line_lengths : list Length)
    (tolerance fitness_demerit flagged_demerit : double) :
  let pb' := ParBox.precompute_sums pb in
  let p := map ParBox.node_penalty (ParBox.m_nodes pb) in
  let f := map ParBox.node_flagged (ParBox.m_nodes pb) in
  let scan :=
    ParBox.scan pb' p f line_lengths tolerance fitness_demerit
                flagged_demerit in
  let scan_active :=
    ParBox.scan_active pb' p f line_lengths tolerance fitness_demerit
                       flagged_demerit in
  working_set_ok [ParBox.sentinel]
  /\ (forall k active fb,
        scan (seq 0 k) [ParBox.sentinel] [] = ret (active, fb) ->
        working_set_ok active
        /\ (forall pre post kept breaks,
              active = pre ++ post ->
              scan_active k pre = ret (kept, breaks) ->
              working_set_ok (kept ++ post))
        /\ (forall kept breaks done todo,
              scan_active k active = ret (kept, breaks) ->
              breaks = done ++ todo ->
              working_set_ok (ParBox.add_breaks kept done)))
  /\ (forall active fb,
        ParBox.compute_breaks pb line_lengths tolerance fitness_demerit
                              flagged_demerit = ParBox.NoReturn active fb ->
        working_set_ok active)
  /\ (forall active node b,
        working_set_ok active -> In b active -> same_triple b node ->
        ParBox.add_active_node active node = active).
Proof.
  intros pb' p f scan scan_active.
  split; [apply sentinel_ok|]. split; [|split].
  - intros k active fb E.
    assert (K : working_set_ok active).
    { eapply scan_ok; [exact E|apply sentinel_ok]. }
    split; [exact K|]. split.
    + intros pre post kept breaks -> Ep.
      eapply erased_ok; [|exact K].
      apply erased_app. eapply scan_active_erased. exact Ep.
    + intros kept breaks done todo Ea _.
      apply add_breaks_ok. eapply erased_ok; [|exact K].
      eapply scan_active_erased. exact Ea.
  - intros active fb. unfold ParBox.compute_breaks.
    destruct (length (ParBox.m_nodes pb) =? 0)%nat; [discriminate|].
    fold pb' p f.
    destruct (ParBox.scan pb' p f line_lengths tolerance fitness_demerit
                flagged_demerit (seq 0 (length (ParBox.m_nodes pb)))
                [ParBox.sentinel] []) as [e|[active' fb']] eqn:E;
      [discriminate|].
    intro R. inversion R; subst.
    eapply scan_ok; [exact E|apply sentinel_ok].
  - intros active node b [S _] I T.
    eapply add_active_node_duplicate; eassumption.
Qed.

End WorkingSetInvariant.

(** ** The break search *)

Section BreakSearch.
Context {B : Type} `{Box B} `{Sentinels}.
Variable pb : ParBox.t B.
Variables (p : list double) (f : list bool).
Variable line_lengths : list Length.
Variables tolerance fitness_demerit flagged_demerit : double.

(** The only [return] statement is the one for the empty node list. *)
Lemma compute_breaks_returns_only_empty (breaks : ParBox.BreaksList) :
  ParBox.compute_breaks pb line_lengths tolerance fitness_demerit
                        flagged_demerit = ParBox.Returned breaks ->
  ParBox.m_nodes pb = [] /\ breaks = [].
Proof.
  unfold ParBox.compute_breaks.
  destruct (ParBox.m_nodes pb) as [|n nodes] eqn:En.
  - simpl. intro E. inversion E. auto.
  - cbn [length Nat.eqb].
    destruct (ParBox.scan _ _ _ _ _ _ _ _ _ _) as [e|[a fb]]; discriminate.
Qed.

(** What the constructor call of lines 345-349 stores. *)
Lemma new_breakpoint_fields (i : nat) (a brk : ParBox.Breakpoint) (r : double) :
  ParBox.new_breakpoint pb p f fitness_demerit flagged_demerit i a r = ret brk ->
  ParBox.position brk = i
  /\ ParBox.line brk = (ParBox.line a + 1)%nat
  /\ ParBox.fitness_class brk = ParBox.fitness r
  /\ ParBox.previous brk = None.
Proof.
  unfold ParBox.new_breakpoint. intro E.
  bind_inv E as d0 E0. bind_inv E as f_i Ei. bind_inv E as f_a Ea.
  bind_inv E as sw Ew. bind_inv E as sy Ey. bind_inv E as sz Ez.
  bind_inv E as d Ed. inversion E; subst. simpl. auto.
Qed.

(** For an active node that is not erased, the test of line 317 does not
    depend on [r]: it is [1 <= tolerance]. *)
Lemma recorded_iff_tolerance (i : nat) (r : double) :
  ParBox.pruned pb i r = ret false ->
  chained_le (-1) r tolerance = Qleb 1 tolerance.
Proof.
  unfold ParBox.pruned, chained_le. case_cmp; [discriminate|]. intros _.
  assert (L : Qleb (-1) r = true) by (apply Qleb_le; exact E).
  rewrite L. reflexivity.
Qed.

(** At a forced break every active node that is visited is erased and no
    breakpoint is appended. *)
Lemma forced_break_erases (i : nat)
    (active kept breaks : ParBox.BreakpointList) :
  ParBox.is_forced_break pb i = ret true ->
  ParBox.scan_active pb p f line_lengths tolerance fitness_demerit
                     flagged_demerit i active = ret (kept, breaks) ->
  kept = [] /\ breaks = [].
Proof.
  intro F. induction active as [|a rest IH]; simpl; intro E.
  - inversion E. auto.
  - bind_inv E as r Er. bind_inv E as erase Ee.
    assert (erase = true).
    { unfold ParBox.pruned in Ee. destruct (Qltb r (-1)).
      - inversion Ee. reflexivity.
      - rewrite F in Ee. inversion Ee. reflexivity. }
    subst erase. auto.
Qed.

Lemma forced_break_stops_scan (i : nat) (rest : list nat)
    (active : ParBox.BreakpointList) (fb : ParBox.BreaksList) :
  ParBox.is_feasible_breakpoint pb i = ret true ->
  ParBox.is_forced_break pb i = ret true ->
  exists why,
    ParBox.scan pb p f line_lengths tolerance fitness_demerit flagged_demerit
                (i :: rest) active fb = raise why.
Proof.
  intros Fe Fo. cbn [ParBox.scan]. unfold ParBox.scan_position.
  rewrite Fe. cbn [bind ret].
  destruct (ParBox.scan_active pb p f line_lengths tolerance fitness_demerit
              flagged_demerit i active) as [e|[kept breaks]] eqn:E.
  - exists e. reflexivity.
  - destruct (forced_break_erases _ _ Fo E) as [-> ->].
    exists DerefEndIterator. reflexivity.
Qed.

End BreakSearch.

Section Runs.
Context `{Sentinels}.

(** C1.  For the node list of one box, [compute_breaks] reaches the end of
    the function without a [return]; the list built in the last turn of the
    loop is [0], the position of the sentinel. *)
Theorem compute_breaks_one_box :
  ParBox.compute_breaks one_box [100] 1 100 100
  = ParBox.NoReturn [ParBox.sentinel] [0%nat].
Proof. vm_compute. reflexivity. Qed.

(** C2.  In the run on [two_loose_lines] the active breakpoint [a] at
    position 2 has demerits 513922501.  The candidate at position 4 that
    extends it is stored with line number [a.line + 1], with the demerits
    307460633 of its own line only, and with no predecessor; it is in the
    working set at the end, and the list built from the winner is [0]. *)
Theorem candidate_of_second_line :
  let pb' := ParBox.precompute_sums two_loose_lines in
  let p := map ParBox.node_penalty (ParBox.m_nodes two_loose_lines) in
  let f := map ParBox.node_flagged (ParBox.m_nodes two_loose_lines) in
  exists (a brk : ParBox.Breakpoint) (r : double)
         (active : ParBox.BreakpointList),
    ParBox.scan pb' p f [100] 1 100 100 (seq 0 4) [ParBox.sentinel] []
    = ret ([ParBox.sentinel; a], [0%nat])
    /\ ParBox.position a = 2%nat
    /\ ParBox.demerits a = 513922501%Z
    /\ ParBox.compute_adjustment_ratio pb' 2 4 (ParBox.line a) [100] = ret r
    /\ ParBox.new_breakpoint pb' p f 100 100 4 a r = ret brk
    /\ ParBox.line brk = (ParBox.line a + 1)%nat
    /\ ParBox.demerits brk = 307460633%Z
    /\ ParBox.previous brk = None
    /\ ParBox.compute_breaks two_loose_lines [100] 1 100 100
       = ParBox.NoReturn active [0%nat]
    /\ In brk active.
Proof.
  intros pb' p f. do 4 eexists.
  split; [vm_compute; reflexivity|].
  split; [reflexivity|]. split; [reflexivity|].
  split; [vm_compute; reflexivity|].
  split; [vm_compute; reflexivity|].
  split; [reflexivity|]. split; [reflexivity|]. split; [reflexivity|].
  split; [vm_compute; reflexivity|].
  simpl. auto.
Qed.

(** C3.  With tolerance 1, the line of [loose_line] from the sentinel to
    position 2 has adjustment ratio 2, above the tolerance; the sentinel is
    not erased and the candidate is recorded all the same.  With tolerance
    1/2, the line of [exact_line] has ratio 0, inside [-1, 1/2]; the sentinel
    is not erased and no candidate is recorded. *)
Theorem tolerance_test_runs :
  (let pb' := ParBox.precompute_sums loose_line in
   let p := map ParBox.node_penalty (ParBox.m_nodes loose_line) in
   let f := map ParBox.node_flagged (ParBox.m_nodes loose_line) in
   exists (r : double) (brk : ParBox.Breakpoint),
     ParBox.compute_adjustment_ratio pb' 0 2 0 [100] = ret r
     /\ r == 2 /\ ~ (-1 <= r /\ r <= 1)
     /\ ParBox.pruned pb' 2 r = ret false
     /\ ParBox.scan_active pb' p f [100] 1 100 100 2 [ParBox.sentinel]
        = ret ([ParBox.sentinel], [brk])
     /\ ParBox.position brk = 2%nat)
  /\ (let pb' := ParBox.precompute_sums exact_line in
      let p := map ParBox.node_penalty (ParBox.m_nodes exact_line) in
      let f := map ParBox.node_flagged (ParBox.m_nodes exact_line) in
      exists r : double,
        ParBox.compute_adjustment_ratio pb' 0 2 0 [10] = ret r
        /\ (-1 <= r /\ r <= 1 # 2)
        /\ ParBox.pruned pb' 2 r = ret false
        /\ ParBox.scan_active pb' p f [10] (1 # 2) 100 100 2 [ParBox.sentinel]
           = ret ([ParBox.sentinel], [])).
Proof.
  split.
  - intros pb' p f. do 2 eexists.
    split; [vm_compute; reflexivity|].
    split; [reflexivity|].
    split; [intros [_ L]; vm_compute in L; apply L; reflexivity|].
    split; [vm_compute; reflexivity|].
    split; [vm_compute; reflexivity|]. reflexivity.
  - intros pb' p f. eexists.
    split; [vm_compute; reflexivity|].
    split; [split; discriminate|].
    split; vm_compute; reflexivity.
Qed.

(** C4.  On [overfull_line] with lines of length 30 the sentinel is erased
    at position 2 (ratio -2), the working set is empty, and the next
    statement dereferences [begin()] of the empty list: nothing is reported
    to the caller. *)
Theorem empty_working_set_run :
  (let pb' := ParBox.precompute_sums overfull_line in
   let p := map ParBox.node_penalty (ParBox.m_nodes overfull_line) in
   let f := map ParBox.node_flagged (ParBox.m_nodes overfull_line) in
   ParBox.scan_position pb' p f [30] 1 100 100 2 [ParBox.sentinel] = ret [])
  /\ ParBox.compute_breaks overfull_line [30] 1 100 100
     = ParBox.Undefined DerefEndIterator.
Proof. split; vm_compute; reflexivity. Qed.

End Runs.

(** C5.  On [forced_line] position 1 is a forced break; there the working
    set is emptied and [begin()] of the empty list is dereferenced: no break
    list with position 1 comes out. *)
Theorem forced_break_run :
  let S := example_sentinels in
  ParBox.is_forced_break forced_line 1 = ret true
  /\ ParBox.is_feasible_breakpoint forced_line 1 = ret true
  /\ ParBox.compute_breaks forced_line [100] 1 100 100
     = ParBox.Undefined DerefEndIterator.
Proof. repeat split; vm_compute; reflexivity. Qed.

Section ForcedBreaks.
Context {B : Type} `{Box B} `{Sentinels}.

(** A forced break anywhere in the node list: the call has no defined
    result. *)
Lemma forced_break_undefined (pb : ParBox.t B) (line_lengths : list Length)
    (tolerance fitness_demerit flagged_demerit : double)
    (k : nat) (pen : Penalty.t) :
  0 < Penalty_infinity ->
  nth_error (ParBox.m_nodes pb) k = Some (PenaltyNode pen) ->
  Penalty.penalty pen <= -1 * Penalty_infinity ->
  exists why,
    ParBox.compute_breaks pb line_lengths tolerance fitness_demerit
                          flagged_demerit = ParBox.Undefined why.
Proof.
  intros P En Ep.
  assert (Lk : (k < length (ParBox.m_nodes pb))%nat).
  { apply nth_error_Some. congruence. }
  unfold ParBox.compute_breaks.
  destruct (length (ParBox.m_nodes pb) =? 0)%nat eqn:E0;
    [apply Nat.eqb_eq in E0; lia|].
  set (pb' := ParBox.precompute_sums pb).
  assert (Fo : ParBox.is_forced_break pb' k = ret true).
  { unfold ParBox.is_forced_break, at_index. cbn [pb' ParBox.precompute_sums
      ParBox.m_nodes]. rewrite En. cbn [bind ret].
    case_cmp; [reflexivity|]. exfalso. apply (Qlt_not_le _ _ E Ep). }
  assert (Fe : ParBox.is_feasible_breakpoint pb' k = ret true).
  { unfold ParBox.is_feasible_breakpoint, at_index. cbn [pb'
      ParBox.precompute_sums ParBox.m_nodes]. rewrite En. cbn [bind ret].
    case_cmp; [reflexivity|]. exfalso. lra. }
  replace (seq 0 (length (ParBox.m_nodes pb)))
    with (seq 0 k ++ k :: seq (S k) (length (ParBox.m_nodes pb) - S k)).
  2:{ change (k :: seq (S k) (length (ParBox.m_nodes pb) - S k))
        with (seq (0 + k) (S (length (ParBox.m_nodes pb) - S k))).
      rewrite <- seq_app. f_equal. lia. }
  rewrite scan_app.
  destruct (ParBox.scan pb' _ _ line_lengths tolerance fitness_demerit
              flagged_demerit (seq 0 k) [ParBox.sentinel] [])
    as [e|[active fb]]; cbn [bind].
  - exists e. reflexivity.
  - destruct (@forced_break_stops_scan B _ _ pb'
                (map ParBox.node_penalty (ParBox.m_nodes pb))
                (map ParBox.node_flagged (ParBox.m_nodes pb))
                line_lengths tolerance fitness_demerit flagged_demerit k
                (seq (S k) (length (ParBox.m_nodes pb) - S k)) active fb
                Fe Fo) as [why ->].
    exists why. reflexivity.
Qed.

End ForcedBreaks.

(** ** The theorems at concrete inputs *)

#[local] Existing Instance example_sentinels.

Lemma is_feasible_breakpoint_iff_witness :
  exists b,
    ParBox.is_feasible_breakpoint loose_line 2 = ret b.
Proof.
  apply (proj2 (is_feasible_breakpoint_iff loose_line 2)).
  simpl. lia.
Defined.

Lemma compute_adjustment_ratio_cases_witness :
  (exists r : double,
      ParBox.compute_adjustment_ratio
        (ParBox.precompute_sums ninety_of_hundred) 0 2 0 [100] = ret r
      /\ r == 1 # 2 /\ ParBox.fitness r = 1%Z)
  /\ (exists r : double,
        ParBox.compute_adjustment_ratio
          (ParBox.precompute_sums hyphen_line) 0 2 3 [50; 100] = ret r
        /\ r == 1 # 2 /\ ParBox.fitness r = 1%Z)
  /\ (exists r : double,
        ParBox.compute_adjustment_ratio
          (ParBox.precompute_sums overfull_line) 0 2 0 [30] = ret r
        /\ r == -2)
  /\ ParBox.compute_adjustment_ratio
       (ParBox.precompute_sums loose_line) 1 2 0 [100] = ret Glue_infinity
  /\ ParBox.compute_adjustment_ratio
       (ParBox.precompute_sums overfull_line) 1 2 0 [30] = ret Glue_infinity
  /\ ParBox.compute_adjustment_ratio
       (ParBox.precompute_sums exact_line) 0 2 0 [10] = ret 0.
Proof.
  split; [|split; [|split; [|split; [|split]]]].
  - pose proof (@compute_adjustment_ratio_cases _ _ _
                  (ParBox.precompute_sums ninety_of_hundred) 0 2 0 [100]
                  (glue_node 5 0 0) eq_refl
                  ltac:(simpl; lia) ltac:(simpl; lia) ltac:(simpl; lia)
                  ltac:(simpl; lia) ltac:(simpl; lia) ltac:(simpl; lia)
                  ltac:(discriminate)) as K.
    cbv zeta in K.
    destruct K as [_ [_ [_ [_ [_ [r [Er [_ [_ [_ [_ [_ Ex]]]]]]]]]]]].
    exists r. split; [exact Er|]. apply Ex; reflexivity.
  - pose proof (@compute_adjustment_ratio_cases _ _ _
                  (ParBox.precompute_sums hyphen_line) 0 2 3 [50; 100]
                  (penalty_node 0 false 10) eq_refl
                  ltac:(simpl; lia) ltac:(simpl; lia) ltac:(simpl; lia)
                  ltac:(simpl; lia) ltac:(simpl; lia) ltac:(simpl; lia)
                  ltac:(discriminate)) as K.
    cbv zeta in K.
    destruct K as [_ [_ [_ [_ [_ [r [Er [_ [_ [_ [_ [_ Ex]]]]]]]]]]]].
    exists r. split; [exact Er|]. apply Ex; reflexivity.
  - pose proof (@compute_adjustment_ratio_cases _ _ _
                  (ParBox.precompute_sums overfull_line) 0 2 0 [30]
                  (glue_node 5 0 0) eq_refl
                  ltac:(simpl; lia) ltac:(simpl; lia) ltac:(simpl; lia)
                  ltac:(simpl; lia) ltac:(simpl; lia) ltac:(simpl; lia)
                  ltac:(discriminate)) as K.
    cbv zeta in K.
    destruct K as [_ [_ [_ [_ [_ [r [Er [_ [_ [Sh _]]]]]]]]]].
    exists r. split; [exact Er|].
    assert (R : r = (30 - (0 + 0 + 50 - 0)) / (0 + 10 + 0 - 0))
      by (apply Sh; reflexivity).
    rewrite R. reflexivity.
  - pose proof (@compute_adjustment_ratio_cases _ _ _
                  (ParBox.precompute_sums loose_line) 1 2 0 [100]
                  (glue_node 5 0 0) eq_refl
                  ltac:(simpl; lia) ltac:(simpl; lia) ltac:(simpl; lia)
                  ltac:(simpl; lia) ltac:(simpl; lia) ltac:(simpl; lia)
                  ltac:(discriminate)) as K.
    cbv zeta in K.
    destruct K as [_ [_ [_ [_ [_ [r [Er [_ [St _]]]]]]]]].
    assert (R : r = Glue_infinity) by (apply St; [reflexivity|discriminate]).
    rewrite Er, R. reflexivity.
  - pose proof (@compute_adjustment_ratio_cases _ _ _
                  (ParBox.precompute_sums overfull_line) 1 2 0 [30]
                  (glue_node 5 0 0) eq_refl
                  ltac:(simpl; lia) ltac:(simpl; lia) ltac:(simpl; lia)
                  ltac:(simpl; lia) ltac:(simpl; lia) ltac:(simpl; lia)
                  ltac:(discriminate)) as K.
    cbv zeta in K.
    destruct K as [_ [_ [_ [_ [_ [r [Er [_ [_ [_ [Sh _]]]]]]]]]]].
    assert (R : r = Glue_infinity) by (apply Sh; [reflexivity|discriminate]).
    rewrite Er, R. reflexivity.
  - pose proof (@compute_adjustment_ratio_cases _ _ _
                  (ParBox.precompute_sums exact_line) 0 2 0 [10]
                  (glue_node 5 0 0) eq_refl
                  ltac:(simpl; lia) ltac:(simpl; lia) ltac:(simpl; lia)
                  ltac:(simpl; lia) ltac:(simpl; lia) ltac:(simpl; lia)
                  ltac:(discriminate)) as K.
    cbv zeta in K.
    destruct K as [_ [_ [_ [_ [_ [r [Er [_ [_ [_ [_ [Eq _]]]]]]]]]]]].
    assert (R : r = 0) by (apply Eq; reflexivity).
    rewrite Er, R. reflexivity.
Defined.

Lemma working_set_invariant_witness :
  exists (active : ParBox.BreakpointList) (fb : ParBox.BreaksList),
    ParBox.compute_breaks two_loose_lines [100] 1 100 100
    = ParBox.NoReturn active fb
    /\ length active = 4%nat
    /\ working_set_ok active
    /\ ParBox.add_active_node active ParBox.sentinel = active.
Proof.
  destruct (working_set_invariant two_loose_lines [100] 1 100 100)
    as [_ [_ [K D]]].
  destruct (ParBox.compute_breaks two_loose_lines [100] 1 100 100)
    as [l|active fb|why] eqn:E;
    [vm_compute in E; discriminate| |vm_compute in E; discriminate].
  pose proof (K active fb eq_refl) as Ok.
  exists active, fb.
  split; [reflexivity|].
  split; [vm_compute in E; inversion E; reflexivity|].
  split; [exact Ok|].
  apply (D active ParBox.sentinel ParBox.sentinel Ok).
  - vm_compute in E. inversion E. left. reflexivity.
  - repeat split.
Defined.

Lemma FixedBox_place_width (b : FixedBox) (x y : Length) :
  width (place b x y) = width b.
Proof. reflexivity. Defined.

Lemma FixedBox_place_ascent (b : FixedBox) (x y : Length) :
  ascent (place b x y) = ascent b.
Proof. reflexivity. Defined.

Lemma FixedBox_place_descent (b : FixedBox) (x y : Length) :
  descent (place b x y) = descent b.
Proof. reflexivity. Defined.

Lemma calc_layout_four_boxes_witness :
  ParBox.Walk.lines (ParBox.walk four_boxes 80 0) = 1%Z
  /\ ParBox.m_descent (ParBox.calc_layout four_boxes 80 0) == 4
  /\ ParBox.m_ascent (ParBox.calc_layout four_boxes 80 0) == 9 + 12
  /\ ParBox.m_width (ParBox.calc_layout four_boxes 80 0) = 80.
Proof.
  destruct (@calc_layout_four_boxes FixedBox FixedBox_Box
              FixedBox_place_width FixedBox_place_ascent
              FixedBox_place_descent four_boxes
              {| fb_width := 30; fb_ascent := 8; fb_descent := 2;
                 fb_x := 0; fb_y := 0 |}
              {| fb_width := 40; fb_ascent := 9; fb_descent := 3;
                 fb_x := 0; fb_y := 0 |}
              {| fb_width := 20; fb_ascent := 7; fb_descent := 1;
                 fb_x := 0; fb_y := 0 |}
              {| fb_width := 50; fb_ascent := 6; fb_descent := 4;
                 fb_x := 0; fb_y := 0 |}
              80 0)
    as [_ [L [_ [D [_ [A [_ W]]]]]]];
    try reflexivity.
  split; [exact L|]. split; [|split; [|exact W]].
  - rewrite D; [reflexivity|]. left. discriminate.
  - rewrite A; [reflexivity|]. left. discriminate.
Defined.

(** C9 as it was stated, at [four_sunk_boxes]: the widths, the spacing, the
    hint and the wrap are the ones of the claim, but the descent of the
    paragraph is 0, not the maximum descent over the boxes of the last line,
    and its ascent is one vertical spacing, not the maximum ascent over the
    boxes of the first line plus one vertical spacing. *)
Lemma calc_layout_four_boxes_counterexample :
  map node_width (ParBox.m_nodes four_sunk_boxes) = [30; 40; 20; 50]
  /\ ParBox.m_hspacing four_sunk_boxes = 5
  /\ ParBox.Walk.lines (ParBox.walk four_sunk_boxes 80 0) = 1%Z
  /\ exists c1 c2 c3 c4 : FixedBox,
       ParBox.m_nodes (ParBox.calc_layout four_sunk_boxes 80 0)
       = [BoxNode c1; BoxNode c2; BoxNode c3; BoxNode c4]
       /\ fb_y c1 == 0 /\ fb_y c2 == 0
       /\ fb_y c3 == - ParBox.m_vspacing four_sunk_boxes
       /\ fb_y c4 == - ParBox.m_vspacing four_sunk_boxes
       /\ ParBox.m_descent (ParBox.calc_layout four_sunk_boxes 80 0) == 0
       /\ ~ (ParBox.m_descent (ParBox.calc_layout four_sunk_boxes 80 0)
             == Qmax (descent c3) (descent c4))
       /\ ~ (ParBox.m_ascent (ParBox.calc_layout four_sunk_boxes 80 0)
             == Qmax (ascent c1) (ascent c2)
                + ParBox.m_vspacing four_sunk_boxes).
Proof.
  split; [reflexivity|]. split; [reflexivity|]. split; [reflexivity|].
  do 4 eexists.
  split; [vm_compute; reflexivity|].
  split; [reflexivity|]. split; [reflexivity|].
  split; [reflexivity|]. split; [reflexivity|].
  split; [reflexivity|].
  split; intro E; vm_compute in E; discriminate.
Qed.

Lemma first_box_wider_than_hint_witness :
  Z.le 1 (ParBox.Walk.lines (ParBox.walk wide_first_box 80 0))
  /\ ParBox.m_ascent (ParBox.calc_layout wide_first_box 80 0)
     == inject_Z (ParBox.Walk.lines (ParBox.walk wide_first_box 80 0)) * 12.
Proof.
  destruct (@first_box_wider_than_hint FixedBox _ wide_first_box 80 0
              [glue_node 3 0 0] [fixed_box 20 9 1]
              {| fb_width := 100; fb_ascent := 8; fb_descent := 2;
                 fb_x := 0; fb_y := 0 |})
    as [_ [_ [_ [L A]]]].
  - reflexivity.
  - repeat constructor. discriminate.
  - reflexivity.
  - split; [exact L|exact A].
Defined.

(** * Further properties of the greedy layout *)

Unset Implicit Arguments.

Section GreedyLayoutFacts.
Context {B : Type} `{Box B}.
Variables vspacing hspacing width_hint height_hint : Length.

(** Glue and penalties do not take part in the walk. *)
Lemma layout_nodes_boxes_only (st : ParBox.Walk.t) (nodes : list (LayoutNode B)) :
  fst (ParBox.layout_nodes vspacing hspacing width_hint height_hint st nodes)
  = fst (ParBox.layout_nodes vspacing hspacing width_hint height_hint st
           (filter is_box nodes)).
Proof.
  revert st. induction nodes as [|n nodes IH]; intro st; [reflexivity|].
  destruct n as [b|g|p].
  - cbn [filter is_box type NodeType_eqb ParBox.layout_nodes].
    destruct (ParBox.layout_node _ _ _ _ st (BoxNode b)) as [st1 n1].
    specialize (IH st1).
    destruct (ParBox.layout_nodes _ _ _ _ st1 nodes) as [st2 l2].
    destruct (ParBox.layout_nodes _ _ _ _ st1 (filter is_box nodes))
      as [st3 l3].
    exact IH.
  - cbn [filter is_box type NodeType_eqb ParBox.layout_nodes
         ParBox.layout_node].
    specialize (IH st).
    destruct (ParBox.layout_nodes _ _ _ _ st nodes) as [st2 l2]. exact IH.
  - cbn [filter is_box type NodeType_eqb ParBox.layout_nodes
         ParBox.layout_node].
    specialize (IH st).
    destruct (ParBox.layout_nodes _ _ _ _ st nodes) as [st2 l2]. exact IH.
Qed.

Lemma layout_node_placed (st : ParBox.Walk.t) (n : LayoutNode B) :
  placed width_hint height_hint n
    (snd (ParBox.layout_node vspacing hspacing width_hint height_hint st n)).
Proof.
  destruct n as [b|g|p]; [|reflexivity|reflexivity].
  unfold placed, ParBox.layout_node.
  destruct (Qltb width_hint
              (ParBox.Walk.x_off st
               + width (calc_layout b width_hint height_hint))) eqn:E;
    cbn [snd]; do 2 eexists; (split; [reflexivity|]).
  - left. reflexivity.
  - right. apply Qltb_ge in E. exact E.
Qed.

Lemma layout_nodes_placed (st : ParBox.Walk.t) (nodes : list (LayoutNode B)) :
  Forall2 (placed width_hint height_hint) nodes
    (snd (ParBox.layout_nodes vspacing hspacing width_hint height_hint
                              st nodes)).
Proof.
  revert st. induction nodes as [|n nodes IH]; intro st; [constructor|].
  cbn [ParBox.layout_nodes].
  pose proof (layout_node_placed st n) as P.
  destruct (ParBox.layout_node _ _ _ _ st n) as [st1 n1].
  specialize (IH st1).
  destruct (ParBox.layout_nodes _ _ _ _ st1 nodes) as [st2 l2].
  constructor; assumption.
Qed.

(** The line counter never decreases and grows by at most one per box. *)
Lemma layout_node_lines (st : ParBox.Walk.t) (n : LayoutNode B) :
  let st' := fst (ParBox.layout_node vspacing hspacing width_hint height_hint
                                     st n) in
  (ParBox.Walk.lines st <= ParBox.Walk.lines st'
   <= ParBox.Walk.lines st + (if is_box n then 1 else 0))%Z.
Proof.
  destruct n as [b|g|p]; cbn [is_box type NodeType_eqb];
    [|simpl; lia|simpl; lia].
  unfold ParBox.layout_node.
  destruct (Qltb width_hint _); cbn [fst ParBox.wrap ParBox.Walk.lines]; lia.
Qed.

Lemma layout_nodes_lines (st : ParBox.Walk.t) (nodes : list (LayoutNode B)) :
  let st' := fst (ParBox.layout_nodes vspacing hspacing width_hint height_hint
                                      st nodes) in
  (ParBox.Walk.lines st <= ParBox.Walk.lines st'
   <= ParBox.Walk.lines st + Z.of_nat (length (filter is_box nodes)))%Z.
Proof.
  revert st. induction nodes as [|n nodes IH]; intro st.
  - simpl. lia.
  - cbn [ParBox.layout_nodes].
    pose proof (layout_node_lines st n) as B1.
    destruct (ParBox.layout_node _ _ _ _ st n) as [st1 n1].
    cbn [fst] in B1.
    pose proof (IH st1) as B2.
    destruct (ParBox.layout_nodes _ _ _ _ st1 nodes) as [st2 l2].
    cbn [fst] in B2 |- *.
    cbn [filter]. destruct (is_box n); cbn [length]; lia.
Qed.

(** The running maxima never go below 0. *)
Lemma running_max_nonneg (c : bool) (a x : Q) :
  0 <= a -> 0 <= (if c && Qltb a x then x else a).
Proof.
  intro A. destruct c; cbn [andb]; [|exact A].
  case_cmp; lra.
Qed.

Lemma layout_node_maxima (st : ParBox.Walk.t) (n : LayoutNode B) :
  0 <= ParBox.Walk.ascent st -> 0 <= ParBox.Walk.descent st ->
  let st' := fst (ParBox.layout_node vspacing hspacing width_hint height_hint
                                     st n) in
  0 <= ParBox.Walk.ascent st' /\ 0 <= ParBox.Walk.descent st'.
Proof.
  intros A D. destruct n as [b|g|p]; [|simpl; auto|simpl; auto].
  unfold ParBox.layout_node.
  destruct (Qltb width_hint _);
    cbn [fst ParBox.wrap ParBox.Walk.lines ParBox.Walk.ascent
         ParBox.Walk.descent ParBox.Walk.x_off ParBox.Walk.y_off];
    (split; [apply running_max_nonneg; exact A|]).
  - apply (running_max_nonneg true). lra.
  - apply (running_max_nonneg true). exact D.
Qed.

Lemma layout_nodes_maxima (st : ParBox.Walk.t) (nodes : list (LayoutNode B)) :
  0 <= ParBox.Walk.ascent st -> 0 <= ParBox.Walk.descent st ->
  let st' := fst (ParBox.layout_nodes vspacing hspacing width_hint height_hint
                                      st nodes) in
  0 <= ParBox.Walk.ascent st' /\ 0 <= ParBox.Walk.descent st'.
Proof.
  revert st. induction nodes as [|n nodes IH]; intros st A D; [simpl; auto|].
  cbn [ParBox.layout_nodes].
  destruct (layout_node_maxima st n A D) as [A1 D1].
  destruct (ParBox.layout_node _ _ _ _ st n) as [st1 n1]. cbn [fst] in A1, D1.
  destruct (IH st1 A1 D1) as [A2 D2].
  destruct (ParBox.layout_nodes _ _ _ _ st1 nodes) as [st2 l2].
  cbn [fst] in *. auto.
Qed.

End GreedyLayoutFacts.

Section GreedyLayoutTheorems.
Context {B : Type} `{Box B}.

(** X1.  Glue and penalty children have no effect on the geometry that
    [calc_layout] computes: two paragraphs with the same spacings and the
    same box children in the same order get the same ascent, descent,
    multiline shift and width, whatever glue and penalties lie between the
    boxes. *)
Theorem calc_layout_boxes_only (pb1 pb2 : ParBox.t B)
    (width_hint height_hint : Length) :
  ParBox.m_vspacing pb1 = ParBox.m_vspacing pb2 ->
  ParBox.m_hspacing pb1 = ParBox.m_hspacing pb2 ->
  filter is_box (ParBox.m_nodes pb1) = filter is_box (ParBox.m_nodes pb2) ->
  let r1 := ParBox.calc_layout pb1 width_hint height_hint in
  let r2 := ParBox.calc_layout pb2 width_hint height_hint in
  ParBox.m_ascent r1 = ParBox.m_ascent r2
  /\ ParBox.m_descent r1 = ParBox.m_descent r2
  /\ ParBox.m_multiline_shift r1 = ParBox.m_multiline_shift r2
  /\ ParBox.m_width r1 = ParBox.m_width r2.
Proof.
  intros Ev Eh Ef r1 r2. unfold r1, r2, ParBox.calc_layout.
  pose proof (layout_nodes_boxes_only (ParBox.m_vspacing pb1)
                (ParBox.m_hspacing pb1) width_hint height_hint
                ParBox.Walk.start (ParBox.m_nodes pb1)) as E1.
  pose proof (layout_nodes_boxes_only (ParBox.m_vspacing pb2)
                (ParBox.m_hspacing pb2) width_hint height_hint
                ParBox.Walk.start (ParBox.m_nodes pb2)) as E2.
  rewrite <- Ev, <- Eh, <- Ef in E2. rewrite <- E1 in E2. rewrite <- Ev, <- Eh.
  destruct (ParBox.layout_nodes (ParBox.m_vspacing pb1) (ParBox.m_hspacing pb1)
              width_hint height_hint ParBox.Walk.start (ParBox.m_nodes pb1))
    as [st1 l1].
  destruct (ParBox.layout_nodes (ParBox.m_vspacing pb1) (ParBox.m_hspacing pb1)
              width_hint height_hint ParBox.Walk.start (ParBox.m_nodes pb2))
    as [st2 l2].
  cbn [fst] in E2. subst st2. cbn. auto.
Qed.

(** X2.  [calc_layout] keeps the number, the order and the kinds of the
    children; it leaves glue and penalties as they are, and it places each
    box, measured with the hints, either at the left edge of a line or so
    that the box ends within [width_hint]. *)
Theorem calc_layout_places_children (pb : ParBox.t B)
    (width_hint height_hint : Length) :
  Forall2 (placed width_hint height_hint) (ParBox.m_nodes pb)
          (ParBox.m_nodes (ParBox.calc_layout pb width_hint height_hint)).
Proof.
  unfold ParBox.calc_layout.
  pose proof (layout_nodes_placed (ParBox.m_vspacing pb) (ParBox.m_hspacing pb)
                width_hint height_hint ParBox.Walk.start (ParBox.m_nodes pb))
    as P.
  destruct (ParBox.layout_nodes _ _ _ _ _ (ParBox.m_nodes pb)) as [st l].
  exact P.
Qed.

(** X3.  The line counter of [calc_layout] never decreases along the walk
    and ends between 0 and the number of box children: a box wraps the line
    at most once, glue and penalties never do. *)
Theorem calc_layout_line_counter (pb : ParBox.t B)
    (width_hint height_hint : Length) :
  let after :=
    locals_after (ParBox.m_vspacing pb) (ParBox.m_hspacing pb)
                 width_hint height_hint in
  (0 <= ParBox.Walk.lines (ParBox.walk pb width_hint height_hint)
   <= Z.of_nat (length (filter is_box (ParBox.m_nodes pb))))%Z
  /\ (forall l1 l2,
        ParBox.m_nodes pb = l1 ++ l2 ->
        (0 <= ParBox.Walk.lines (after l1)
         <= ParBox.Walk.lines (ParBox.walk pb width_hint height_hint))%Z).
Proof.
  intros loc. split.
  - unfold ParBox.walk.
    pose proof (layout_nodes_lines (ParBox.m_vspacing pb)
                  (ParBox.m_hspacing pb) width_hint height_hint
                  ParBox.Walk.start (ParBox.m_nodes pb)) as Bd.
    cbn [ParBox.Walk.start ParBox.Walk.lines] in Bd. cbv zeta in Bd. lia.
  - intros l1 l2 E. unfold loc, locals_after, ParBox.walk. rewrite E.
    rewrite layout_nodes_app.
    pose proof (layout_nodes_lines (ParBox.m_vspacing pb)
                  (ParBox.m_hspacing pb) width_hint height_hint
                  ParBox.Walk.start l1) as B1.
    destruct (ParBox.layout_nodes _ _ _ _ ParBox.Walk.start l1) as [st1 l1'].
    pose proof (layout_nodes_lines (ParBox.m_vspacing pb)
                  (ParBox.m_hspacing pb) width_hint height_hint st1 l2) as B2.
    destruct (ParBox.layout_nodes _ _ _ _ st1 l2) as [st2 l2'].
    cbn [fst ParBox.Walk.start ParBox.Walk.lines] in *. lia.
Qed.

(** X4.  After [calc_layout] the descent of the paragraph is not negative
    and its ascent is at least the multiline shift; a paragraph without box
    children has descent 0, ascent 0 and no wrapped line, and its children
    are unchanged. *)
Theorem calc_layout_geometry_bounds (pb : ParBox.t B)
    (width_hint height_hint : Length) :
  let pb' := ParBox.calc_layout pb width_hint height_hint in
  0 <= ParBox.m_descent pb'
  /\ ParBox.m_multiline_shift pb' <= ParBox.m_ascent pb'
  /\ (Forall (fun n => type n <> box) (ParBox.m_nodes pb) ->
      ParBox.m_descent pb' = 0
      /\ ParBox.m_ascent pb' == 0
      /\ ParBox.Walk.lines (ParBox.walk pb width_hint height_hint) = 0%Z
      /\ ParBox.m_nodes pb' = ParBox.m_nodes pb).
Proof.
  intro pb'. unfold pb', ParBox.calc_layout, ParBox.walk.
  split; [|split].
  - destruct (layout_nodes_maxima (ParBox.m_vspacing pb) (ParBox.m_hspacing pb)
                width_hint height_hint ParBox.Walk.start (ParBox.m_nodes pb))
      as [_ D]; [cbn; lra|cbn; lra|].
    destruct (ParBox.layout_nodes _ _ _ _ _ (ParBox.m_nodes pb)) as [s l].
    exact D.
  - destruct (layout_nodes_maxima (ParBox.m_vspacing pb) (ParBox.m_hspacing pb)
                width_hint height_hint ParBox.Walk.start (ParBox.m_nodes pb))
      as [A _]; [cbn; lra|cbn; lra|].
    destruct (ParBox.layout_nodes _ _ _ _ _ (ParBox.m_nodes pb)) as [s l].
    cbn [fst ParBox.m_multiline_shift ParBox.m_ascent] in *. lra.
  - intro N.
    rewrite (layout_nodes_no_box (ParBox.m_vspacing pb) (ParBox.m_hspacing pb)
               width_hint height_hint ParBox.Walk.start N).
    cbn. repeat split; try reflexivity; ring.
Qed.

End GreedyLayoutTheorems.

Section Idempotence.
Context {B : Type} `{Box B} `{!LawfulBox B}.
Variables vspacing hspacing width_hint height_hint : Length.

(** A child that has been laid out comes out of the same turn unchanged. *)
Lemma layout_node_again (st st' : ParBox.Walk.t) (n n' : LayoutNode B) :
  ParBox.layout_node vspacing hspacing width_hint height_hint st n = (st', n') ->
  ParBox.layout_node vspacing hspacing width_hint height_hint st n' = (st', n').
Proof.
  destruct n as [b|g|p]; cbn [ParBox.layout_node]; intro E;
    [|inversion E; subst; reflexivity|inversion E; subst; reflexivity].
  inversion E; subst; clear E.
  cbn [ParBox.layout_node].
  rewrite calc_layout_place, calc_layout_twice, !place_place,
    !place_keeps_width, !place_keeps_ascent, !place_keeps_descent.
  reflexivity.
Qed.

Lemma layout_nodes_again (st st' : ParBox.Walk.t)
    (nodes nodes' : list (LayoutNode B)) :
  ParBox.layout_nodes vspacing hspacing width_hint height_hint st nodes
  = (st', nodes') ->
  ParBox.layout_nodes vspacing hspacing width_hint height_hint st nodes'
  = (st', nodes').
Proof.
  revert st st' nodes'.
  induction nodes as [|n nodes IH]; intros st st' nodes' E;
    cbn [ParBox.layout_nodes] in E.
  - inversion E; subst. reflexivity.
  - destruct (ParBox.layout_node _ _ _ _ st n) as [st1 n1] eqn:E1.
    destruct (ParBox.layout_nodes _ _ _ _ st1 nodes) as [st2 l2] eqn:E2.
    inversion E; subst. cbn [ParBox.layout_nodes].
    rewrite (layout_node_again _ _ _ _ E1), (IH _ _ _ E2). reflexivity.
Qed.

End Idempotence.

Section Lawfulness.
Context {B : Type} `{Box B}.

(** X5.  When the children keep the contract of the Box interface, so does
    the paragraph: [place] leaves its width, ascent and descent as they are
    and overrides an earlier placement, [calc_layout] does not depend on the
    placement, and a second [calc_layout] with the same hints changes
    nothing, neither in the geometry nor in the children. *)
Theorem ParBox_lawful : LawfulBox B -> LawfulBox (ParBox.t B).
Proof.
  intro L. constructor.
  - reflexivity.
  - reflexivity.
  - reflexivity.
  - reflexivity.
  - intros pb x y w h. cbn [calc_layout place ParBox_Box].
    unfold ParBox.calc_layout, ParBox.place. cbn.
    destruct (ParBox.layout_nodes _ _ _ _ _ (ParBox.m_nodes pb)) as [st l].
    reflexivity.
  - intros pb w h. cbn [calc_layout ParBox_Box].
    unfold ParBox.calc_layout.
    destruct (ParBox.layout_nodes (ParBox.m_vspacing pb) (ParBox.m_hspacing pb)
                w h ParBox.Walk.start (ParBox.m_nodes pb)) as [st l] eqn:E.
    cbn [ParBox.m_nodes ParBox.m_vspacing ParBox.m_hspacing ParBox.m_voff
         ParBox.m_x ParBox.m_y ParBox.m_sum_widths ParBox.m_sum_stretch
         ParBox.m_sum_shrink].
    rewrite (layout_nodes_again _ _ _ _ _ _ _ _ E). reflexivity.
Qed.

End Lawfulness.

(** * Further properties of the break search *)

(** ** The running sums *)

Lemma running_sums_length (a : Length) (v : list Length) :
  length (ParBox.running_sums a v) = length v.
Proof.
  revert a. induction v as [|x v IH]; intro a; simpl; [reflexivity|].
  rewrite IH. reflexivity.
Qed.

(** Entry [i] of the running sums is computed from the entries before
    position [i] alone. *)
Lemma running_sums_prefix (i : nat) (a : Length) (v1 v2 : list Length) :
  firstn i v1 = firstn i v2 ->
  (i < length v1)%nat -> (i < length v2)%nat ->
  nth i (ParBox.running_sums a v1) 0 = nth i (ParBox.running_sums a v2) 0.
Proof.
  revert a v1 v2. induction i as [|i IH]; intros a v1 v2 E L1 L2;
    destruct v1 as [|x1 v1]; destruct v2 as [|x2 v2]; simpl in L1, L2;
    try lia.
  - reflexivity.
  - cbn [firstn] in E. inversion E; subst x2.
    cbn [ParBox.running_sums nth]. apply IH; [assumption|lia|lia].
Qed.

(** Each entry is the one before it plus the value at the position before:
    the additions of lines 286-288, in their order. *)
Lemma running_sums_step (v : list Length) (a : Length) (i : nat) :
  (S i < length v)%nat ->
  nth (S i) (ParBox.running_sums a v) 0
  = nth i (ParBox.running_sums a v) 0 + nth i v 0.
Proof.
  revert a i. induction v as [|x v IH]; intros a i L; simpl in L; [lia|].
  destruct i as [|i].
  - destruct v as [|y v]; [simpl in L; lia|]. reflexivity.
  - cbn [ParBox.running_sums nth]. apply IH. lia.
Qed.

Lemma firstn_le {A : Type} (i1 i2 : nat) (v1 v2 : list A) :
  (i1 <= i2)%nat -> firstn i2 v1 = firstn i2 v2 ->
  firstn i1 v1 = firstn i1 v2.
Proof.
  intros L E.
  rewrite <- (Nat.min_l i1 i2 L), <- !firstn_firstn, E. reflexivity.
Qed.

Section RunningSums.
Context {B : Type} `{Box B}.

(** The three measures between two positions agree for two vectors of
    running sums that were computed from node values with the same prefix. *)
Lemma measure_prefix (g : LayoutNode B -> Length)
    (nodes1 nodes2 : list (LayoutNode B)) (i1 i2 : nat) :
  (i1 <= i2)%nat ->
  (i2 < length nodes1)%nat -> (i2 < length nodes2)%nat ->
  firstn i2 nodes1 = firstn i2 nodes2 ->
  nth i2 (ParBox.running_sums 0 (map g nodes1)) 0
  - nth i1 (ParBox.running_sums 0 (map g nodes1)) 0
  = nth i2 (ParBox.running_sums 0 (map g nodes2)) 0
    - nth i1 (ParBox.running_sums 0 (map g nodes2)) 0.
Proof.
  intros L L1 L2 E.
  assert (Eg : firstn i2 (map g nodes1) = firstn i2 (map g nodes2))
    by (rewrite !firstn_map, E; reflexivity).
  rewrite (running_sums_prefix i2 0 (map g nodes1) (map g nodes2) Eg)
    by (rewrite length_map; lia).
  rewrite (running_sums_prefix i1 0 (map g nodes1) (map g nodes2)
             (firstn_le i1 i2 _ _ L Eg))
    by (rewrite length_map; lia).
  reflexivity.
Qed.

(** X6.  The running sums of [compute_breaks] start at 0 and each entry is
    the entry before it plus the width (stretch, shrink) of the node before
    it, so the width, stretch and shrink measured between two positions
    [i1 <= i2] are computed from the nodes before [i2] alone: two node lists
    that agree before position [i2] give the same three measures, whatever
    the node at the break position [i2] and the nodes after it are. *)
Theorem measure_ignores_break_node (pb1 pb2 : ParBox.t B) (i1 i2 : nat) :
  (i1 <= i2)%nat ->
  (i2 < length (ParBox.m_nodes pb1))%nat ->
  (i2 < length (ParBox.m_nodes pb2))%nat ->
  firstn i2 (ParBox.m_nodes pb1) = firstn i2 (ParBox.m_nodes pb2) ->
  let pb1' := ParBox.precompute_sums pb1 in
  let pb2' := ParBox.precompute_sums pb2 in
  (exists w y z : Length,
      ParBox.measure_width pb1' i1 i2 = ret w
      /\ ParBox.measure_width pb2' i1 i2 = ret w
      /\ ParBox.measure_stretch pb1' i1 i2 = ret y
      /\ ParBox.measure_stretch pb2' i1 i2 = ret y
      /\ ParBox.measure_shrink pb1' i1 i2 = ret z
      /\ ParBox.measure_shrink pb2' i1 i2 = ret z)
  /\ at_index (ParBox.m_sum_widths pb1') 0 = ret 0
  /\ at_index (ParBox.m_sum_stretch pb1') 0 = ret 0
  /\ at_index (ParBox.m_sum_shrink pb1') 0 = ret 0
  /\ (forall i node,
        (S i < length (ParBox.m_nodes pb1))%nat ->
        nth_error (ParBox.m_nodes pb1) i = Some node ->
        exists sw sy sz : Length,
          at_index (ParBox.m_sum_widths pb1') i = ret sw
          /\ at_index (ParBox.m_sum_widths pb1') (S i)
             = ret (sw + node_width node)
          /\ at_index (ParBox.m_sum_stretch pb1') i = ret sy
          /\ at_index (ParBox.m_sum_stretch pb1') (S i)
             = ret (sy + ParBox.node_stretch node)
          /\ at_index (ParBox.m_sum_shrink pb1') i = ret sz
          /\ at_index (ParBox.m_sum_shrink pb1') (S i)
             = ret (sz + ParBox.node_shrink node)).
Proof.
  intros L L1 L2 E pb1' pb2'.
  unfold ParBox.measure_width, ParBox.measure_stretch, ParBox.measure_shrink.
  cbn [pb1' pb2' ParBox.precompute_sums ParBox.m_sum_widths
       ParBox.m_sum_stretch ParBox.m_sum_shrink].
  rewrite !measure_defined
    by (rewrite running_sums_length, length_map; lia).
  split; [|split; [|split; [|split]]].
  - do 3 eexists.
    split; [reflexivity|].
    split; [rewrite (measure_prefix node_width _ _ i1 i2 L L1 L2 E);
            reflexivity|].
    split; [reflexivity|].
    split; [rewrite (measure_prefix ParBox.node_stretch _ _ i1 i2 L L1 L2 E);
            reflexivity|].
    split; [reflexivity|].
    rewrite (measure_prefix ParBox.node_shrink _ _ i1 i2 L L1 L2 E).
    reflexivity.
  - destruct (ParBox.m_nodes pb1); [simpl in L1; lia|reflexivity].
  - destruct (ParBox.m_nodes pb1); [simpl in L1; lia|reflexivity].
  - destruct (ParBox.m_nodes pb1); [simpl in L1; lia|reflexivity].
  - intros i node Li En.
    assert (Step : forall g : LayoutNode B -> Length,
      at_index (ParBox.running_sums 0 (map g (ParBox.m_nodes pb1))) i
      = ret (nth i (ParBox.running_sums 0 (map g (ParBox.m_nodes pb1))) 0)
      /\ at_index (ParBox.running_sums 0 (map g (ParBox.m_nodes pb1))) (S i)
         = ret (nth i (ParBox.running_sums 0 (map g (ParBox.m_nodes pb1))) 0
                + g node)).
    { intro g. split.
      - apply at_index_nth. rewrite running_sums_length, length_map. lia.
      - rewrite (at_index_nth _ 0)
          by (rewrite running_sums_length, length_map; lia).
        rewrite running_sums_step by (rewrite length_map; lia).
        rewrite (@nth_error_nth Length _ i _ 0 (map_nth_error g i _ En)).
        reflexivity. }
    do 3 eexists.
    split; [apply (Step node_width)|]. split; [apply (Step node_width)|].
    split; [apply (Step ParBox.node_stretch)|].
    split; [apply (Step ParBox.node_stretch)|].
    split; [apply (Step ParBox.node_shrink)|].
    apply (Step ParBox.node_shrink).
Qed.

End RunningSums.

(** ** The adjustment ratio and the erasing test *)

Section RatioBounds.
Context {B : Type} `{Box B} `{Sentinels}.

Lemma ratio_sign (len avail y z : Q) :
  -1 <= Glue_infinity ->
  exists r : Q,
    (if Qltb len avail
     then stretch <- ret y ;;
          if Qltb 0 stretch then ret ((avail - len) / stretch)
          else ret Glue_infinity
     else if Qltb avail len
          then shrink <- ret z ;;
               if Qltb 0 shrink then ret ((avail - len) / shrink)
               else ret Glue_infinity
          else ret 0) = ret r
    /\ (r < -1 <-> avail < len /\ 0 < z /\ z < len - avail)
    /\ (len < avail -> 0 < y -> 0 < r)
    /\ (avail < len -> 0 < z -> r < 0).
Proof.
  intro G. cbn [bind ret]. repeat case_cmp.
  - exists ((avail - len) / y).
    assert (P : 0 < (avail - len) / y)
      by (apply Qlt_shift_div_l; [exact E0|lra]).
    split; [reflexivity|].
    split; [split; [intro; lra|intros [? _]; lra]|].
    split; [auto|intros; lra].
  - exists Glue_infinity. split; [reflexivity|].
    split; [split; [intro; lra|intros [? _]; lra]|].
    split; intros; lra.
  - exists ((avail - len) / z).
    assert (N : (avail - len) / z < 0)
      by (apply Qlt_shift_div_r; [exact E1|lra]).
    split; [reflexivity|]. split; [|split; [intros; lra|auto]].
    split.
    + intro R. split; [exact E0|]. split; [exact E1|].
      apply Qnot_le_lt. intro Le.
      assert (M : -1 <= (avail - len) / z)
        by (apply Qle_shift_div_l; [exact E1|lra]).
      lra.
    + intros [_ [_ S]]. apply Qlt_shift_div_r; [exact E1|lra].
  - exists Glue_infinity. split; [reflexivity|].
    split; [split; [intro; lra|intros [_ [? _]]; lra]|].
    split; intros; lra.
  - exists 0. split; [reflexivity|].
    split; [split; [intro; lra|intros [? _]; lra]|].
    split; intros; lra.
Qed.

(** X7.  With an infinity sentinel that is not below -1, the adjustment
    ratio of a line is below -1, the value at which [compute_breaks] erases
    the active node, exactly when the line is longer than the available
    length by more than its positive shrink; in particular an overfull line
    without shrink is never erased by that test.  A shorter line with
    positive stretch has a positive ratio, a longer line with positive
    shrink a negative one. *)
Theorem ratio_below_minus_one (pb : ParBox.t B) (i1 i2 line : nat)
    (line_lengths : list Length) :
  (i2 < length (ParBox.m_nodes pb))%nat ->
  (i1 < length (ParBox.m_sum_widths pb))%nat ->
  (i2 < length (ParBox.m_sum_widths pb))%nat ->
  (i1 < length (ParBox.m_sum_stretch pb))%nat ->
  (i2 < length (ParBox.m_sum_stretch pb))%nat ->
  (i1 < length (ParBox.m_sum_shrink pb))%nat ->
  (i2 < length (ParBox.m_sum_shrink pb))%nat ->
  line_lengths <> [] ->
  -1 <= Glue_infinity ->
  exists len avail stretch_sum shrink_sum r : Q,
    ParBox.line_length pb i1 i2 = ret len
    /\ ParBox.available_length line line_lengths = ret avail
    /\ ParBox.measure_stretch pb i1 i2 = ret stretch_sum
    /\ ParBox.measure_shrink pb i1 i2 = ret shrink_sum
    /\ ParBox.compute_adjustment_ratio pb i1 i2 line line_lengths = ret r
    /\ (r < -1 <->
        avail < len /\ 0 < shrink_sum /\ shrink_sum < len - avail)
    /\ (len < avail -> 0 < stretch_sum -> 0 < r)
    /\ (avail < len -> 0 < shrink_sum -> r < 0).
Proof.
  intros Ln Lw1 Lw2 Ly1 Ly2 Lz1 Lz2 Nll G.
  unfold ParBox.compute_adjustment_ratio, ParBox.line_length,
    ParBox.measure_width, ParBox.measure_stretch, ParBox.measure_shrink.
  rewrite !measure_defined by assumption.
  rewrite (available_length_defined line Nll).
  destruct (at_index_some _ Ln) as [node [-> _]].
  cbn [bind ret].
  set (w := nth i2 (ParBox.m_sum_widths pb) 0
            - nth i1 (ParBox.m_sum_widths pb) 0).
  set (y := nth i2 (ParBox.m_sum_stretch pb) 0
            - nth i1 (ParBox.m_sum_stretch pb) 0).
  set (z := nth i2 (ParBox.m_sum_shrink pb) 0
            - nth i1 (ParBox.m_sum_shrink pb) 0).
  set (avail := if (line <? length line_lengths)%nat
                then nth line line_lengths 0 else last line_lengths 0).
  destruct (ratio_sign
              (if NodeType_eqb (type node) penalty then w + node_width node
               else w) avail y z G) as [r [Er P]].
  exists (if NodeType_eqb (type node) penalty then w + node_width node else w),
    avail, y, z, r.
  destruct (NodeType_eqb (type node) penalty); cbn [bind ret] in *;
    (split; [reflexivity|]); (split; [reflexivity|]); (split; [reflexivity|]);
    (split; [reflexivity|]); (split; [exact Er|]); exact P.
Qed.

End RatioBounds.

(** ** The node of lowest demerits *)

Lemma min_demerits_node_spec (rest : ParBox.BreakpointList)
    (m : ParBox.Breakpoint) :
  let b := ParBox.min_demerits_node m rest in
  (b = m /\ Forall (fun x => (ParBox.demerits b <= ParBox.demerits x)%Z) rest)
  \/ (exists pre post,
        rest = pre ++ b :: post
        /\ (ParBox.demerits b < ParBox.demerits m)%Z
        /\ Forall (fun x => (ParBox.demerits b < ParBox.demerits x)%Z) pre
        /\ Forall (fun x => (ParBox.demerits b <= ParBox.demerits x)%Z) post).
Proof.
  revert m. induction rest as [|c rest IH]; intro m; cbn [ParBox.min_demerits_node].
  - left. split; [reflexivity|constructor].
  - destruct (ParBox.demerits c <? ParBox.demerits m)%Z eqn:E.
    + apply Z.ltb_lt in E. right.
      destruct (IH c) as [[Eb F]|[pre [post [Er [Lt [Fpre Fpost]]]]]].
      * exists [], rest. rewrite Eb in *.
        split; [reflexivity|]. split; [exact E|].
        split; [constructor|exact F].
      * exists (c :: pre), post.
        split; [rewrite Er at 1; reflexivity|]. split; [lia|].
        split; [constructor; [exact Lt|exact Fpre]|exact Fpost].
    + apply Z.ltb_ge in E.
      destruct (IH m) as [[Eb F]|[pre [post [Er [Lt [Fpre Fpost]]]]]].
      * left. split; [exact Eb|].
        constructor; [rewrite Eb; exact E|exact F].
      * right. exists (c :: pre), post.
        split; [rewrite Er at 1; reflexivity|]. split; [exact Lt|].
        split; [constructor; [lia|exact Fpre]|exact Fpost].
Qed.

(** X8.  The search of lines 359-375 fails exactly on the empty working
    set; otherwise it yields an entry of the working set whose demerits are
    strictly below those of every entry before it and not above those of
    any entry after it: the first entry of lowest demerits. *)
Theorem lowest_demerits_is_first_minimum (active : ParBox.BreakpointList) :
  (active = [] /\ ParBox.lowest_demerits active = raise DerefEndIterator)
  \/ (exists b pre post,
        ParBox.lowest_demerits active = ret b
        /\ active = pre ++ b :: post
        /\ Forall (fun x => (ParBox.demerits b < ParBox.demerits x)%Z) pre
        /\ Forall (fun x => (ParBox.demerits b <= ParBox.demerits x)%Z) post).
Proof.
  destruct active as [|a rest]; [left; split; reflexivity|right].
  cbn [ParBox.lowest_demerits].
  destruct (min_demerits_node_spec rest a)
    as [[Eb F]|[pre [post [Er [Lt [Fpre Fpost]]]]]].
  - exists (ParBox.min_demerits_node a rest), [], rest.
    split; [reflexivity|]. split; [rewrite Eb at 1; reflexivity|].
    split; [constructor|exact F].
  - exists (ParBox.min_demerits_node a rest), (a :: pre), post.
    split; [reflexivity|]. split; [rewrite Er at 1; reflexivity|].
    split; [constructor; [exact Lt|exact Fpre]|exact Fpost].
Qed.

(** ** Where [add_active_node] inserts *)

Lemma line_le_head (n b : ParBox.Breakpoint) (rest : ParBox.BreakpointList) :
  sorted_by_line (b :: rest) ->
  (ParBox.line n <= ParBox.line b)%nat ->
  Forall (line_le n) (b :: rest).
Proof.
  intros S L. apply StronglySorted_inv in S. destruct S as [_ Fb].
  constructor; [exact L|].
  rewrite Forall_forall in *. intros x Ix.
  specialize (Fb x Ix). unfold line_le in *. lia.
Qed.

(** X9.  In a working set sorted by line number, [add_active_node] either
    finds an entry with the triple of the new node and leaves the working
    set as it is, or no entry has that triple and the new node is inserted
    after all entries of lower line number and before all entries of its own
    or a higher line number. *)
Theorem add_active_node_position (l : ParBox.BreakpointList)
    (n : ParBox.Breakpoint) :
  sorted_by_line l ->
  (ParBox.add_active_node l n = l
   /\ exists b, In b l /\ same_triple b n)
  \/ (exists pre post,
        l = pre ++ post
        /\ ParBox.add_active_node l n = pre ++ n :: post
        /\ Forall (fun x => (ParBox.line x < ParBox.line n)%nat) pre
        /\ Forall (fun x => (ParBox.line n <= ParBox.line x)%nat) post
        /\ Forall (fun x => ~ same_triple n x) l).
Proof.
  induction l as [|b rest IH]; intro S.
  - right. exists [], []. repeat split; constructor.
  - pose proof S as S0. unfold sorted_by_line in S.
    apply StronglySorted_inv in S. destruct S as [S Fb].
    cbn [ParBox.add_active_node].
    destruct (ParBox.line b <? ParBox.line n)%nat eqn:El.
    + apply Nat.ltb_lt in El.
      destruct (IH S) as [[E [d [Id Td]]]|[pre [post [El' [Ea [Fpre [Fpost Fn]]]]]]].
      * left. split; [rewrite E; reflexivity|].
        exists d. split; [right; exact Id|exact Td].
      * right. exists (b :: pre), post.
        split; [rewrite El' at 1; reflexivity|].
        split; [rewrite Ea; reflexivity|].
        split; [constructor; assumption|].
        split; [exact Fpost|].
        constructor; [|exact Fn]. intros [E _]. lia.
    + apply Nat.ltb_ge in El.
      pose proof (line_le_head n b rest S0 El) as Fn.
      destruct (ParBox.same_line_duplicate (b :: rest) n) eqn:Ed.
      * left. split; [reflexivity|].
        assert (Ex : exists d, In d (b :: rest) /\ same_triple d n).
        { clear IH. revert Ed. generalize (b :: rest).
          intro l. induction l as [|c l IHl]; cbn [ParBox.same_line_duplicate];
            [discriminate|].
          destruct (ParBox.line c =? ParBox.line n)%nat eqn:Ec;
            [|discriminate].
          destruct ((ParBox.fitness_class c =? ParBox.fitness_class n)%Z
                    && (ParBox.position c =? ParBox.position n)%nat)%bool
            eqn:Ek.
          - intros _. exists c. split; [left; reflexivity|].
            apply andb_true_iff in Ek. destruct Ek as [Ef Ep].
            apply Nat.eqb_eq in Ec, Ep. apply Z.eqb_eq in Ef.
            repeat split; assumption.
          - intro Ed. destruct (IHl Ed) as [d [Id Td]].
            exists d. split; [right; exact Id|exact Td]. }
        exact Ex.
      * right. exists [], (b :: rest).
        split; [reflexivity|]. split; [reflexivity|].
        split; [constructor|]. split; [exact Fn|].
        apply no_duplicate_found; assumption.
Qed.

(** ** What the working set holds *)

Lemma add_breaks_Forall (P : ParBox.Breakpoint -> Prop)
    (breaks l : ParBox.BreakpointList) :
  Forall P l -> Forall P breaks -> Forall P (ParBox.add_breaks l breaks).
Proof.
  unfold ParBox.add_breaks. revert l.
  induction breaks as [|n breaks IH]; intros l Fl Fb; simpl; [exact Fl|].
  inversion Fb; subst. apply IH; [|assumption].
  rewrite Forall_forall in *. intros x Ix.
  destruct (add_active_node_In _ _ _ Ix) as [->|I]; auto.
Qed.

Lemma Qpower_3 (q : Q) : q ^ 3 == q * q * q.
Proof. simpl. ring. Qed.

Lemma Qpower_2 (q : Q) : q ^ 2 == q * q.
Proof. simpl. ring. Qed.

Lemma cube_ge_1 (x : Q) : 1 <= x -> 1 <= x ^ 3.
Proof. intro L. rewrite Qpower_3. nra. Qed.

Lemma square_ge_1 (x : Q) : 1 <= x -> 1 <= x ^ 2.
Proof. intro L. rewrite Qpower_2. nra. Qed.

Lemma badness_nonneg (r : Q) : 0 <= 100 * Qabs r ^ 3.
Proof.
  pose proof (Qabs_nonneg r) as A. rewrite Qpower_3.
  assert (0 <= Qabs r * Qabs r * Qabs r) by nra. lra.
Qed.

(** A double that is at least 1 is converted to an int that is at least 1. *)
Lemma double_to_int_ge_1 (d : double) (z : Z) :
  1 <= d -> double_to_int d = ret z -> (1 <= z)%Z.
Proof.
  unfold double_to_int. intros L E.
  destruct ((INT_MIN <=? Qnum d ÷ Z.pos (Qden d))
            && (Qnum d ÷ Z.pos (Qden d) <=? INT_MAX))%Z; [|discriminate].
  inversion E; subst z. unfold Qle in L. simpl in L.
  apply Z.quot_le_lower_bound; lia.
Qed.

Section WorkingSetContents.
Context {B : Type} `{Box B} `{Sentinels}.
Variable pb : ParBox.t B.
Variables (p : list double) (f : list bool).
Variable line_lengths : list Length.
Variables tolerance fitness_demerit flagged_demerit : double.

Variable P : ParBox.Breakpoint -> Prop.
Hypothesis P_new :
  forall i a r brk,
    ParBox.pruned pb i r = ret false ->
    ParBox.new_breakpoint pb p f fitness_demerit flagged_demerit i a r
    = ret brk ->
    P brk.

Lemma scan_active_Forall (i : nat)
    (active kept breaks : ParBox.BreakpointList) :
  ParBox.scan_active pb p f line_lengths tolerance fitness_demerit
                     flagged_demerit i active = ret (kept, breaks) ->
  Forall P breaks.
Proof.
  revert kept breaks.
  induction active as [|a rest IH]; intros kept breaks E; simpl in E.
  - inversion E. constructor.
  - bind_inv E as r Er. bind_inv E as erase Ee.
    destruct erase; [eapply IH; exact E|].
    destruct (chained_le (-1) r tolerance).
    + bind_inv E as brk Eb. bind_inv E as kb Ek.
      destruct kb as [kept' breaks']. inversion E; subst.
      constructor; [eapply P_new; eassumption|eapply IH; exact Ek].
    + bind_inv E as kb Ek. destruct kb as [kept' breaks'].
      inversion E; subst. eapply IH; exact Ek.
Qed.

Lemma scan_position_Forall (i : nat) (active active' : ParBox.BreakpointList) :
  ParBox.scan_position pb p f line_lengths tolerance fitness_demerit
                       flagged_demerit i active = ret active' ->
  Forall P active -> Forall P active'.
Proof.
  unfold ParBox.scan_position. intros E F.
  bind_inv E as feasible Ef. destruct feasible.
  - bind_inv E as kb Ek. destruct kb as [kept breaks]. inversion E; subst.
    apply add_breaks_Forall.
    + eapply erased_Forall; [|exact F].
      eapply scan_active_erased. exact Ek.
    + eapply scan_active_Forall. exact Ek.
  - inversion E; subst. exact F.
Qed.

Lemma scan_Forall (positions : list nat)
    (active active' : ParBox.BreakpointList) (fb fb' : ParBox.BreaksList) :
  ParBox.scan pb p f line_lengths tolerance fitness_demerit flagged_demerit
              positions active fb = ret (active', fb') ->
  Forall P active -> Forall P active'.
Proof.
  revert active fb.
  induction positions as [|i rest IH]; intros active fb E F; simpl in E.
  - inversion E; subst. exact F.
  - bind_inv E as active1 E1. bind_inv E as i_min Em.
    eapply IH; [exact E|]. eapply scan_position_Forall; eassumption.
Qed.

(** After at least one turn, the list built is the one of the entry of
    lowest demerits of the working set that is left. *)
Lemma scan_final_breaks (positions : list nat)
    (active active' : ParBox.BreakpointList) (fb fb' : ParBox.BreaksList) :
  positions <> [] ->
  ParBox.scan pb p f line_lengths tolerance fitness_demerit flagged_demerit
              positions active fb = ret (active', fb') ->
  exists i_min,
    ParBox.lowest_demerits active' = ret i_min
    /\ fb' = ParBox.build_final_breaks i_min.
Proof.
  revert active fb.
  induction positions as [|i rest IH]; intros active fb N E; [congruence|].
  simpl in E. bind_inv E as active1 E1. bind_inv E as i_min Em.
  destruct rest as [|j rest].
  - simpl in E. inversion E; subst. eauto.
  - eapply IH; [discriminate|exact E].
Qed.

End WorkingSetContents.

Lemma lowest_demerits_ret (active : ParBox.BreakpointList)
    (b : ParBox.Breakpoint) :
  ParBox.lowest_demerits active = ret b ->
  exists pre post,
    active = pre ++ b :: post
    /\ Forall (fun x => (ParBox.demerits b < ParBox.demerits x)%Z) pre
    /\ Forall (fun x => (ParBox.demerits b <= ParBox.demerits x)%Z) post.
Proof.
  destruct active as [|a rest]; cbn [ParBox.lowest_demerits]; intro E;
    [discriminate|].
  inversion E. subst b. clear E.
  destruct (min_demerits_node_spec rest a)
    as [[Em F]|[pre [post [Er [Lt [Fpre Fpost]]]]]].
  - exists [], rest. split; [rewrite Em; reflexivity|].
    split; [constructor|exact F].
  - exists (a :: pre), post.
    split; [rewrite Er at 1; reflexivity|].
    split; [constructor; [exact Lt|exact Fpre]|exact Fpost].
Qed.

Lemma build_final_breaks_single (b : ParBox.Breakpoint) :
  ParBox.previous b = None ->
  ParBox.build_final_breaks b = [ParBox.position b].
Proof.
  intro E. unfold ParBox.build_final_breaks.
  destruct b; simpl in *; subst; reflexivity.
Qed.

Section RunToTheEnd.
Context {B : Type} `{Box B} `{Sentinels}.
Variable pb : ParBox.t B.
Variable line_lengths : list Length.
Variables tolerance fitness_demerit flagged_demerit : double.

(** A run to the end is a scan of all positions from the sentinel. *)
Lemma compute_breaks_no_return (active : ParBox.BreakpointList)
    (fb : ParBox.BreaksList) :
  ParBox.compute_breaks pb line_lengths tolerance fitness_demerit
                        flagged_demerit = ParBox.NoReturn active fb ->
  seq 0 (length (ParBox.m_nodes pb)) <> []
  /\ ParBox.scan (ParBox.precompute_sums pb)
       (map ParBox.node_penalty (ParBox.m_nodes pb))
       (map ParBox.node_flagged (ParBox.m_nodes pb))
       line_lengths tolerance fitness_demerit flagged_demerit
       (seq 0 (length (ParBox.m_nodes pb))) [ParBox.sentinel] []
     = ret (active, fb).
Proof.
  unfold ParBox.compute_breaks.
  destruct (ParBox.m_nodes pb) as [|n nodes] eqn:En; [discriminate|].
  cbn [length Nat.eqb].
  destruct (ParBox.scan _ _ _ _ _ _ _ _ _ _) as [e|[a' fb']];
    [discriminate|].
  intro E. inversion E; subst. split; [discriminate|reflexivity].
Qed.

(** X10.  When [compute_breaks] runs to the end, no breakpoint of the
    working set has a predecessor, and the list built in the last turn has
    exactly one entry: the position of the first working-set entry of lowest
    demerits. *)
Theorem final_breaks_is_one_position (active : ParBox.BreakpointList)
    (fb : ParBox.BreaksList) :
  ParBox.compute_breaks pb line_lengths tolerance fitness_demerit
                        flagged_demerit = ParBox.NoReturn active fb ->
  Forall (fun b => ParBox.previous b = None) active
  /\ exists b pre post,
       active = pre ++ b :: post
       /\ fb = [ParBox.position b]
       /\ Forall (fun x => (ParBox.demerits b < ParBox.demerits x)%Z) pre
       /\ Forall (fun x => (ParBox.demerits b <= ParBox.demerits x)%Z) post.
Proof.
  intro E. apply compute_breaks_no_return in E. destruct E as [N E].
  assert (F : Forall (fun b => ParBox.previous b = None) active).
  { eapply scan_Forall; [|exact E|repeat constructor].
    intros i a r brk _ Eb. apply new_breakpoint_fields in Eb. apply Eb. }
  split; [exact F|].
  destruct (scan_final_breaks _ _ _ _ _ _ _ _ _ _ _ _ N E) as [b [Eb Ef]].
  destruct (lowest_demerits_ret _ _ Eb) as [pre [post [Ea [Fpre Fpost]]]].
  exists b, pre, post.
  split; [exact Ea|]. split; [|split; assumption].
  rewrite Ef. apply build_final_breaks_single.
  rewrite Forall_forall in F. apply F. rewrite Ea.
  apply in_or_app. right. left. reflexivity.
Qed.

Lemma line_demerits_ge_1 (i : nat) (r d0 : double) :
  ParBox.is_forced_break (ParBox.precompute_sums pb) i = ret false ->
  ParBox.line_demerits (ParBox.precompute_sums pb)
    (map ParBox.node_penalty (ParBox.m_nodes pb)) i r = ret d0 ->
  1 <= d0.
Proof.
  unfold ParBox.line_demerits. intros Fo Hd.
  bind_inv Hd as p_i Ep.
  pose proof (badness_nonneg r) as T.
  revert Hd. case_cmp; intro Hd.
  - inversion Hd. apply cube_ge_1. lra.
  - rewrite Fo in Hd. cbn [bind ret] in Hd. inversion Hd.
    apply square_ge_1. lra.
Qed.

Lemma new_breakpoint_demerits (i : nat) (a brk : ParBox.Breakpoint)
    (r : double) :
  0 <= fitness_demerit -> 0 <= flagged_demerit ->
  ParBox.pruned (ParBox.precompute_sums pb) i r = ret false ->
  ParBox.new_breakpoint (ParBox.precompute_sums pb)
    (map ParBox.node_penalty (ParBox.m_nodes pb))
    (map ParBox.node_flagged (ParBox.m_nodes pb))
    fitness_demerit flagged_demerit i a r = ret brk ->
  (1 <= ParBox.line brk)%nat /\ (1 <= ParBox.demerits brk)%Z.
Proof.
  intros Fd Gd Pr E.
  assert (Fo : ParBox.is_forced_break (ParBox.precompute_sums pb) i
               = ret false).
  { unfold ParBox.pruned in Pr. destruct (Qltb r (-1)); [discriminate|].
    exact Pr. }
  unfold ParBox.new_breakpoint in E.
  bind_inv E as d0 E0. bind_inv E as f_i Ei. bind_inv E as f_a Ea.
  bind_inv E as sw Ew. bind_inv E as sy Ey. bind_inv E as sz Ez.
  bind_inv E as d Ed. inversion E; subst brk. cbn [ParBox.line ParBox.demerits].
  split; [lia|].
  pose proof (line_demerits_ge_1 _ _ _ Fo E0) as D0.
  refine (double_to_int_ge_1 _ _ _ Ed).
  assert (D1 : d0 <= d0 + flagged_demerit * bool_to_double f_i
                          * bool_to_double f_a).
  { destruct f_i, f_a; unfold bool_to_double; lra. }
  destruct (1 <? Z.abs (ParBox.fitness r - ParBox.fitness_class a))%Z; lra.
Qed.

(** X11.  With fitness and flagged demerits that are not negative, every
    entry of the working set at the end of a run is the sentinel or has a
    line number and demerits of at least 1; so as long as the sentinel, of
    demerits 0, is in the working set it is the entry of lowest demerits,
    and the list built is [0]. *)
Theorem sentinel_wins (active : ParBox.BreakpointList)
    (fb : ParBox.BreaksList) :
  0 <= fitness_demerit -> 0 <= flagged_demerit ->
  ParBox.compute_breaks pb line_lengths tolerance fitness_demerit
                        flagged_demerit = ParBox.NoReturn active fb ->
  Forall sentinel_or_recorded active
  /\ (In ParBox.sentinel active -> fb = [0%nat]).
Proof.
  intros Fd Gd E. apply compute_breaks_no_return in E. destruct E as [N E].
  assert (F : Forall sentinel_or_recorded active).
  { eapply scan_Forall; [|exact E|repeat constructor; left; reflexivity].
    intros i a r brk Pr Eb. right.
    eapply new_breakpoint_demerits; eassumption. }
  split; [exact F|]. intro Is.
  assert (Fp : Forall (fun b => ParBox.previous b = None) active).
  { eapply scan_Forall; [|exact E|repeat constructor].
    intros i a r brk _ Eb. apply new_breakpoint_fields in Eb. apply Eb. }
  destruct (scan_final_breaks _ _ _ _ _ _ _ _ _ _ _ _ N E) as [b [Eb Ef]].
  destruct (lowest_demerits_ret _ _ Eb) as [pre [post [Ea [Fpre Fpost]]]].
  assert (Ib : In b active)
    by (rewrite Ea; apply in_or_app; right; left; reflexivity).
  assert (Le : (ParBox.demerits b <= 0)%Z).
  { rewrite Ea in Is. apply in_app_or in Is.
    rewrite Forall_forall in Fpre, Fpost.
    destruct Is as [I|[I|I]].
    - specialize (Fpre _ I). cbn in Fpre. lia.
    - subst b. cbn. lia.
    - specialize (Fpost _ I). cbn in Fpost. exact Fpost. }
  rewrite Forall_forall in F, Fp.
  rewrite Ef, (build_final_breaks_single _ (Fp _ Ib)).
  destruct (F _ Ib) as [->|[_ D]]; [reflexivity|lia].
Qed.

End RunToTheEnd.

(** ** The faults of a run *)

Section Safety.
Context {B : Type} `{Box B} `{Sentinels}.
Variable pb' : ParBox.t B.
Variables (p : list double) (f : list bool).
Variable line_lengths : list Length.
Variables tolerance fitness_demerit flagged_demerit : double.
Variable m : nat.
Hypothesis nodes_m : length (ParBox.m_nodes pb') = m.
Hypothesis widths_m : length (ParBox.m_sum_widths pb') = m.
Hypothesis stretch_m : length (ParBox.m_sum_stretch pb') = m.
Hypothesis shrink_m : length (ParBox.m_sum_shrink pb') = m.
Hypothesis p_m : length p = m.
Hypothesis f_m : length f = m.

Lemma ratio_defined (i1 i2 line : nat) :
  (i1 < m)%nat -> (i2 < m)%nat ->
  (exists r,
      ParBox.compute_adjustment_ratio pb' i1 i2 line line_lengths = ret r)
  \/ (line_lengths = []
      /\ ParBox.compute_adjustment_ratio pb' i1 i2 line line_lengths
         = raise BackOfEmptyVector).
Proof.
  intros L1 L2.
  unfold ParBox.compute_adjustment_ratio, ParBox.line_length,
    ParBox.measure_width, ParBox.measure_stretch, ParBox.measure_shrink.
  rewrite !measure_defined by lia.
  destruct (at_index_some (ParBox.m_nodes pb') (i:=i2)) as [node [-> _]];
    [lia|].
  cbn [bind ret].
  destruct line_lengths as [|x ll] eqn:El.
  - right. split; [reflexivity|].
    destruct (NodeType_eqb (type node) penalty); reflexivity.
  - left. rewrite <- El.
    rewrite (available_length_defined line (line_lengths:=line_lengths))
      by (rewrite El; discriminate).
    destruct (NodeType_eqb (type node) penalty); cbn [bind ret];
      repeat match goal with
             | |- context [Qltb ?a ?b] => destruct (Qltb a b)
             end; eauto.
Qed.

Lemma forced_defined (i : nat) :
  (i < m)%nat -> exists b, ParBox.is_forced_break pb' i = ret b.
Proof.
  intro L. unfold ParBox.is_forced_break.
  destruct (at_index_some (ParBox.m_nodes pb') (i:=i)) as [node [-> _]];
    [lia|].
  cbn [bind ret]. destruct node as [b|g|q]; eauto.
  destruct (Qleb _ _); eauto.
Qed.

Lemma feasible_defined (i : nat) :
  (i < m)%nat -> exists b, ParBox.is_feasible_breakpoint pb' i = ret b.
Proof.
  intro L. unfold ParBox.is_feasible_breakpoint.
  destruct (at_index_some (ParBox.m_nodes pb') (i:=i)) as [node [-> _]];
    [lia|].
  cbn [bind ret]. destruct node as [b|g|q]; cbn [type NodeType_eqb].
  - rewrite andb_false_r. eauto.
  - rewrite andb_true_r. destruct (0 <? i)%nat; [|eauto].
    destruct (at_index_some (ParBox.m_nodes pb') (i:=i - 1))
      as [prev [-> _]]; [lia|].
    cbn [bind ret]. destruct (NodeType_eqb (type prev) box); eauto.
  - destruct (Qltb _ _); eauto.
Qed.

Lemma new_breakpoint_defined (i : nat) (a : ParBox.Breakpoint) (r : double) :
  (i < m)%nat -> (ParBox.position a < m)%nat ->
  (exists brk,
      ParBox.new_breakpoint pb' p f fitness_demerit flagged_demerit i a r
      = ret brk
      /\ ParBox.position brk = i)
  \/ ParBox.new_breakpoint pb' p f fitness_demerit flagged_demerit i a r
     = raise IntOutOfRange.
Proof.
  intros Li La. unfold ParBox.new_breakpoint, ParBox.line_demerits.
  destruct (at_index_some p (i:=i)) as [p_i [-> _]]; [lia|].
  destruct (forced_defined i Li) as [forced ->].
  destruct (at_index_some f (i:=i)) as [f_i [-> _]]; [lia|].
  destruct (at_index_some f (i:=ParBox.position a)) as [f_a [-> _]]; [lia|].
  destruct (at_index_some (ParBox.m_sum_widths pb') (i:=i)) as [sw [-> _]];
    [lia|].
  destruct (at_index_some (ParBox.m_sum_stretch pb') (i:=i)) as [sy [-> _]];
    [lia|].
  destruct (at_index_some (ParBox.m_sum_shrink pb') (i:=i)) as [sz [-> _]];
    [lia|].
  cbn [bind ret].
  assert (D : forall d0 : double,
    (exists brk,
       (f_i0 <- ret f_i ;; f_a0 <- ret f_a ;;
        sw0 <- ret sw ;; sy0 <- ret sy ;; sz0 <- ret sz ;;
        d <- double_to_int
               (if (1 <? Z.abs (ParBox.fitness r - ParBox.fitness_class a))%Z
                then d0 + flagged_demerit * bool_to_double f_i0
                          * bool_to_double f_a0 + fitness_demerit
                else d0 + flagged_demerit * bool_to_double f_i0
                          * bool_to_double f_a0) ;;
        ret (ParBox.mkBreakpoint i (ParBox.line a + 1) (ParBox.fitness r)
               sw0 sy0 sz0 d None)) = ret brk
       /\ ParBox.position brk = i)
    \/ (f_i0 <- ret f_i ;; f_a0 <- ret f_a ;;
        sw0 <- ret sw ;; sy0 <- ret sy ;; sz0 <- ret sz ;;
        d <- double_to_int
               (if (1 <? Z.abs (ParBox.fitness r - ParBox.fitness_class a))%Z
                then d0 + flagged_demerit * bool_to_double f_i0
                          * bool_to_double f_a0 + fitness_demerit
                else d0 + flagged_demerit * bool_to_double f_i0
                          * bool_to_double f_a0) ;;
        ret (ParBox.mkBreakpoint i (ParBox.line a + 1) (ParBox.fitness r)
               sw0 sy0 sz0 d None)) = raise IntOutOfRange).
  { intro d0. cbn [bind ret].
    match goal with
    | |- context [double_to_int ?d] =>
        unfold double_to_int;
        destruct ((INT_MIN <=? Qnum d ÷ Z.pos (Qden d))
                  && (Qnum d ÷ Z.pos (Qden d) <=? INT_MAX))%Z
    end; cbn [bind ret raise].
    - left. eexists. split; reflexivity.
    - right. reflexivity. }
  destruct (Qleb 0 p_i); [apply D|].
  cbn [bind ret]. destruct forced; apply D.
Qed.

Lemma pruned_defined (i : nat) (r : double) :
  (i < m)%nat -> exists b, ParBox.pruned pb' i r = ret b.
Proof.
  intro L. unfold ParBox.pruned.
  destruct (Qltb r (-1)); [eauto|apply forced_defined; exact L].
Qed.

Lemma scan_active_safe (i : nat) (active : ParBox.BreakpointList) :
  (i < m)%nat ->
  Forall (fun b => (ParBox.position b < m)%nat) active ->
  match ParBox.scan_active pb' p f line_lengths tolerance fitness_demerit
                           flagged_demerit i active with
  | inl why => possible_fault line_lengths why
  | inr (kept, breaks) =>
      Forall (fun b => (ParBox.position b < m)%nat) breaks
  end.
Proof.
  intros Li F. induction F as [|a rest La Frest IH];
    cbn [ParBox.scan_active]; [constructor|].
  destruct (ratio_defined (ParBox.position a) i (ParBox.line a) La Li)
    as [[r ->]|[El ->]].
  2:{ right. right. split; [reflexivity|exact El]. }
  cbn [bind ret].
  destruct (pruned_defined i r Li) as [erase ->]. cbn [bind ret].
  destruct erase; [exact IH|].
  destruct (chained_le (-1) r tolerance).
  - destruct (new_breakpoint_defined i a r Li La) as [[brk [-> Eb]]| ->].
    2:{ right. left. reflexivity. }
    cbn [bind ret].
    destruct (ParBox.scan_active pb' p f line_lengths tolerance
                fitness_demerit flagged_demerit i rest) as [e|[kept breaks]];
      cbn [bind ret]; [exact IH|].
    constructor; [lia|exact IH].
  - destruct (ParBox.scan_active pb' p f line_lengths tolerance
                fitness_demerit flagged_demerit i rest) as [e|[kept breaks]];
      cbn [bind ret]; exact IH.
Qed.

Lemma scan_position_safe (i : nat) (active : ParBox.BreakpointList) :
  (i < m)%nat ->
  Forall (fun b => (ParBox.position b < m)%nat) active ->
  match ParBox.scan_position pb' p f line_lengths tolerance fitness_demerit
                             flagged_demerit i active with
  | inl why => possible_fault line_lengths why
  | inr active' => Forall (fun b => (ParBox.position b < m)%nat) active'
  end.
Proof.
  intros Li F. unfold ParBox.scan_position.
  destruct (feasible_defined i Li) as [feasible ->]. cbn [bind ret].
  destruct feasible; [|exact F].
  pose proof (scan_active_safe i active Li F) as S.
  destruct (ParBox.scan_active pb' p f line_lengths tolerance fitness_demerit
              flagged_demerit i active) as [e|[kept breaks]] eqn:E;
    cbn [bind ret]; [exact S|].
  apply add_breaks_Forall; [|exact S].
  eapply erased_Forall; [|exact F].
  eapply scan_active_erased. exact E.
Qed.

Lemma scan_safe (positions : list nat) (active : ParBox.BreakpointList)
    (fb : ParBox.BreaksList) (why : fault) :
  Forall (fun i => (i < m)%nat) positions ->
  Forall (fun b => (ParBox.position b < m)%nat) active ->
  ParBox.scan pb' p f line_lengths tolerance fitness_demerit flagged_demerit
              positions active fb = raise why ->
  possible_fault line_lengths why.
Proof.
  intro Fp. revert active fb.
  induction Fp as [|i rest Li Frest IH]; intros active fb F E;
    cbn [ParBox.scan] in E; [discriminate|].
  pose proof (scan_position_safe i active Li F) as S.
  destruct (ParBox.scan_position pb' p f line_lengths tolerance
              fitness_demerit flagged_demerit i active) as [e|active1];
    cbn [bind] in E.
  - inversion E; subst. exact S.
  - destruct active1 as [|a1 rest1]; cbn [ParBox.lowest_demerits bind] in E.
    + inversion E. left. reflexivity.
    + eapply IH; [exact S|exact E].
Qed.

End Safety.

Section Faults.
Context {B : Type} `{Box B} `{Sentinels}.

(** A run that stops inside the scan stops in one of three ways; none of
    them is an index past the end of a vector. *)
Lemma compute_breaks_fault_cases (pb : ParBox.t B)
    (line_lengths : list Length)
    (tolerance fitness_demerit flagged_demerit : double) (why : fault) :
  ParBox.compute_breaks pb line_lengths tolerance fitness_demerit
                        flagged_demerit = ParBox.Undefined why ->
  possible_fault line_lengths why.
Proof.
  unfold ParBox.compute_breaks.
  destruct (length (ParBox.m_nodes pb) =? 0)%nat eqn:E0; [discriminate|].
  apply Nat.eqb_neq in E0.
  destruct (ParBox.scan _ _ _ _ _ _ _ _ _ _) as [e|[a fb]] eqn:E;
    [|discriminate].
  intro U. inversion U; subst e.
  eapply (scan_safe (ParBox.precompute_sums pb) _ _ line_lengths tolerance
            fitness_demerit flagged_demerit (length (ParBox.m_nodes pb)));
    try exact E.
  - reflexivity.
  - cbn. rewrite running_sums_length, length_map. reflexivity.
  - cbn. rewrite running_sums_length, length_map. reflexivity.
  - cbn. rewrite running_sums_length, length_map. reflexivity.
  - apply length_map.
  - apply length_map.
  - apply Forall_forall. intros i Ii. apply in_seq in Ii. lia.
  - repeat constructor. cbn. lia.
Qed.


(** X12.  [compute_breaks] never indexes a vector past its end, and every
    call ends in one of three ways.  It returns the empty list, exactly for
    the empty node list.  Or, for a node list that is not empty, it reaches
    the closing brace of the function without a [return] statement, with a
    working set that is not empty.  Or it stops inside the scan of a node
    list that is not empty, and then only by reading the first entry of an
    empty working set, by demerits that do not fit an int, or, only when
    [line_lengths] is empty, by taking the last entry of the empty vector. *)
Theorem compute_breaks_outcomes (pb : ParBox.t B) (line_lengths : list Length)
    (tolerance fitness_demerit flagged_demerit : double) :
  match ParBox.compute_breaks pb line_lengths tolerance fitness_demerit
                              flagged_demerit with
  | ParBox.Returned breaks => ParBox.m_nodes pb = [] /\ breaks = []
  | ParBox.NoReturn active fb => ParBox.m_nodes pb <> [] /\ active <> []
  | ParBox.Undefined why =>
      ParBox.m_nodes pb <> [] /\ possible_fault line_lengths why
  end.
Proof.
  destruct (ParBox.compute_breaks pb line_lengths tolerance fitness_demerit
              flagged_demerit) as [breaks|active fb|why] eqn:E.
  - apply compute_breaks_returns_only_empty in E. exact E.
  - assert (N : ParBox.m_nodes pb <> []).
    { intro En. unfold ParBox.compute_breaks in E. rewrite En in E.
      discriminate. }
    split; [exact N|].
    apply compute_breaks_no_return in E. destruct E as [Ns E].
    destruct (scan_final_breaks _ _ _ _ _ _ _ _ _ _ _ _ Ns E) as [b [Eb _]].
    intro Ea. rewrite Ea in Eb. discriminate.
  - split; [|eapply compute_breaks_fault_cases; exact E].
    intro En. unfold ParBox.compute_breaks in E. rewrite En in E.
    discriminate.
Qed.

End Faults.

(** ** Tolerances below 1 *)

Lemma erased_single {A : Type} (a : A) (l : list A) :
  erased [a] l -> l = [a] \/ l = [].
Proof.
  intro E. inversion E as [|? ? ? E'|? ? ? E']; subst;
    inversion E'; subst; auto.
Qed.

Section LowTolerance.
Context {B : Type} `{Box B} `{Sentinels}.
Variable pb : ParBox.t B.
Variables (p : list double) (f : list bool).
Variable line_lengths : list Length.
Variables tolerance fitness_demerit flagged_demerit : double.
Hypothesis low : tolerance < 1.

Lemma scan_active_records_nothing (i : nat)
    (active kept breaks : ParBox.BreakpointList) :
  ParBox.scan_active pb p f line_lengths tolerance fitness_demerit
                     flagged_demerit i active = ret (kept, breaks) ->
  breaks = [].
Proof.
  revert kept breaks.
  induction active as [|a rest IH]; intros kept breaks E; simpl in E.
  - inversion E. reflexivity.
  - bind_inv E as r Er. bind_inv E as erase Ee.
    destruct erase; [eapply IH; exact E|].
    rewrite (recorded_iff_tolerance pb tolerance i r Ee) in E.
    assert (T : Qleb 1 tolerance = false) by (apply Qleb_gt; exact low).
    rewrite T in E.
    bind_inv E as kb Ek. destruct kb as [kept' breaks'].
    inversion E; subst. eapply IH; exact Ek.
Qed.

Lemma scan_low_tolerance (positions : list nat)
    (active' : ParBox.BreakpointList) (fb fb' : ParBox.BreaksList) :
  ParBox.scan pb p f line_lengths tolerance fitness_demerit flagged_demerit
              positions [ParBox.sentinel] fb = ret (active', fb') ->
  active' = [ParBox.sentinel] /\ (positions <> [] -> fb' = [0%nat]).
Proof.
  revert fb. induction positions as [|i rest IH]; intros fb E; simpl in E.
  - inversion E. split; [reflexivity|congruence].
  - bind_inv E as active1 E1. bind_inv E as i_min Em.
    assert (A1 : active1 = [ParBox.sentinel]).
    { unfold ParBox.scan_position in E1.
      bind_inv E1 as feasible Ef. destruct feasible.
      - bind_inv E1 as kb Ek. destruct kb as [kept breaks].
        inversion E1; subst active1.
        rewrite (scan_active_records_nothing _ _ _ _ Ek). cbn.
        destruct (erased_single _ _ (scan_active_erased _ _ _ _ _ _ _ _ _ Ek))
          as [->| ->]; [reflexivity|].
        rewrite (scan_active_records_nothing _ _ _ _ Ek) in Em.
        discriminate.
      - inversion E1. reflexivity. }
    subst active1. cbn in Em. inversion Em; subst i_min.
    destruct (IH _ E) as [Ea Ef]. split; [exact Ea|]. intros _.
    destruct rest as [|j rest]; [simpl in E; inversion E; reflexivity|].
    apply Ef. discriminate.
Qed.

End LowTolerance.

Section LowToleranceRun.
Context {B : Type} `{Box B} `{Sentinels}.

(** X13.  With a tolerance below 1 the scan records no breakpoint at all, at
    no position and for no working set; a run to the end leaves the working
    set as the sentinel alone and builds the list [0]. *)
Theorem low_tolerance_records_nothing (pb : ParBox.t B)
    (line_lengths : list Length)
    (tolerance fitness_demerit flagged_demerit : double) :
  tolerance < 1 ->
  (forall i active kept breaks,
      ParBox.scan_active (ParBox.precompute_sums pb)
        (map ParBox.node_penalty (ParBox.m_nodes pb))
        (map ParBox.node_flagged (ParBox.m_nodes pb))
        line_lengths tolerance fitness_demerit flagged_demerit i active
      = ret (kept, breaks) ->
      breaks = [])
  /\ (forall active fb,
        ParBox.compute_breaks pb line_lengths tolerance fitness_demerit
                              flagged_demerit = ParBox.NoReturn active fb ->
        active = [ParBox.sentinel] /\ fb = [0%nat]).
Proof.
  intro low. split.
  - intros i active kept breaks E.
    eapply scan_active_records_nothing; [exact low|exact E].
  - intros active fb E.
    apply compute_breaks_no_return in E. destruct E as [N E].
    destruct (scan_low_tolerance _ _ _ _ _ _ _ low _ _ _ _ E) as [Ea Ef].
    split; [exact Ea|apply Ef; exact N].
Qed.

(** X15.  With a positive penalty sentinel, a penalty whose cost is at most
    the negated sentinel is both a forced break and a feasible breakpoint;
    at its position the scan erases every active node it visits and records
    nothing, and [compute_breaks] on a node list that holds such a penalty
    has no defined result. *)
Theorem forced_break_empties_working_set (pb : ParBox.t B)
    (line_lengths : list Length)
    (tolerance fitness_demerit flagged_demerit : double)
    (k : nat) (pen : Penalty.t) :
  0 < Penalty_infinity ->
  nth_error (ParBox.m_nodes pb) k = Some (PenaltyNode pen) ->
  Penalty.penalty pen <= -1 * Penalty_infinity ->
  ParBox.is_forced_break pb k = ret true
  /\ ParBox.is_feasible_breakpoint pb k = ret true
  /\ (forall p f active kept breaks,
        ParBox.scan_active pb p f line_lengths tolerance fitness_demerit
                           flagged_demerit k active = ret (kept, breaks) ->
        kept = [] /\ breaks = [])
  /\ exists why,
       ParBox.compute_breaks pb line_lengths tolerance fitness_demerit
                             flagged_demerit = ParBox.Undefined why.
Proof.
  intros P En Ep.
  assert (Fo : ParBox.is_forced_break pb k = ret true).
  { unfold ParBox.is_forced_break, at_index. rewrite En. cbn [bind ret].
    case_cmp; [reflexivity|]. exfalso. apply (Qlt_not_le _ _ E Ep). }
  split; [exact Fo|]. split; [|split].
  - unfold ParBox.is_feasible_breakpoint, at_index. rewrite En.
    cbn [bind ret]. case_cmp; [reflexivity|]. exfalso. lra.
  - intros p f active kept breaks E.
    eapply forced_break_erases; [exact Fo|exact E].
  - eapply forced_break_undefined; eassumption.
Qed.

End LowToleranceRun.

(** ** Fitness classes *)

(** X16.  The fitness class of a ratio is one of 0, 1, 2, 3, it does not
    decrease when the ratio grows, and it is the same for two
    representations of the same rational. *)
Theorem fitness_monotone (r1 r2 : double) :
  (0 <= ParBox.fitness r1 <= 3)%Z
  /\ (r1 <= r2 -> (ParBox.fitness r1 <= ParBox.fitness r2)%Z)
  /\ (r1 == r2 -> ParBox.fitness r1 = ParBox.fitness r2).
Proof.
  assert (M : forall a b, a <= b -> (ParBox.fitness a <= ParBox.fitness b)%Z).
  { intros a b L. unfold ParBox.fitness. repeat case_cmp; try lia; lra. }
  split; [|split].
  - unfold ParBox.fitness. repeat case_cmp; lia.
  - apply M.
  - intro E. apply Z.le_antisymm; apply M; lra.
Qed.

(** ** Tolerances of at least 1 *)

Section HighTolerance.
Context {B : Type} `{Box B} `{Sentinels}.

(** X17.  With a tolerance of at least 1, the scan of a position records
    one breakpoint for each active node that it does not erase, in the same
    order: at that position, one line further than the active node, and
    without predecessor. *)
Theorem high_tolerance_records_all (pb : ParBox.t B)
    (p : list double) (f : list bool) (line_lengths : list Length)
    (tolerance fitness_demerit flagged_demerit : double)
    (i : nat) (active kept breaks : ParBox.BreakpointList) :
  1 <= tolerance ->
  ParBox.scan_active pb p f line_lengths tolerance fitness_demerit
                     flagged_demerit i active = ret (kept, breaks) ->
  Forall2 (extends i) kept breaks.
Proof.
  intro high. revert kept breaks.
  induction active as [|a rest IH]; intros kept breaks E; simpl in E.
  - inversion E. constructor.
  - bind_inv E as r Er. bind_inv E as erase Ee.
    destruct erase; [eapply IH; exact E|].
    rewrite (recorded_iff_tolerance pb tolerance i r Ee) in E.
    assert (T : Qleb 1 tolerance = true) by (apply Qleb_le; exact high).
    rewrite T in E.
    bind_inv E as brk Eb. bind_inv E as kb Ek. destruct kb as [kept' breaks'].
    inversion E; subst.
    constructor; [|eapply IH; exact Ek].
    apply new_breakpoint_fields in Eb.
    destruct Eb as [Ep [El [_ Epr]]]. repeat split; assumption.
Qed.

End HighTolerance.

(** ** The further properties at concrete inputs *)

Lemma FixedBox_lawful : LawfulBox FixedBox.
Proof. constructor; reflexivity. Defined.

Lemma calc_layout_boxes_only_witness :
  ParBox.m_ascent (ParBox.calc_layout wide_first_box 80 0)
  = ParBox.m_ascent (ParBox.calc_layout two_boxes 80 0)
  /\ ParBox.m_descent (ParBox.calc_layout wide_first_box 80 0)
     = ParBox.m_descent (ParBox.calc_layout two_boxes 80 0).
Proof.
  destruct (calc_layout_boxes_only wide_first_box two_boxes 80 0)
    as [A [D _]]; try reflexivity.
  split; [exact A|exact D].
Defined.

Lemma calc_layout_geometry_bounds_witness :
  ParBox.m_descent (ParBox.calc_layout only_glue 80 0) = 0
  /\ ParBox.m_nodes (ParBox.calc_layout only_glue 80 0)
     = ParBox.m_nodes only_glue.
Proof.
  destruct (calc_layout_geometry_bounds only_glue 80 0) as [_ [_ K]].
  destruct K as [D [_ [_ N]]].
  - repeat constructor; discriminate.
  - split; [exact D|exact N].
Defined.

Lemma ParBox_lawful_witness : LawfulBox (ParBox.t FixedBox).
Proof. apply ParBox_lawful. exact FixedBox_lawful. Defined.

Lemma measure_ignores_break_node_witness :
  exists w y z : Length,
    ParBox.measure_width (ParBox.precompute_sums two_loose_lines) 0 2 = ret w
    /\ ParBox.measure_width (ParBox.precompute_sums loose_line) 0 2 = ret w
    /\ ParBox.measure_stretch (ParBox.precompute_sums two_loose_lines) 0 2
       = ret y
    /\ ParBox.measure_stretch (ParBox.precompute_sums loose_line) 0 2 = ret y
    /\ ParBox.measure_shrink (ParBox.precompute_sums two_loose_lines) 0 2
       = ret z
    /\ ParBox.measure_shrink (ParBox.precompute_sums loose_line) 0 2 = ret z.
Proof.
  destruct (measure_ignores_break_node two_loose_lines loose_line 0 2)
    as [K _]; [lia|simpl; lia|simpl; lia|reflexivity|].
  exact K.
Defined.

Lemma ratio_below_minus_one_witness :
  exists r : double,
    ParBox.compute_adjustment_ratio (ParBox.precompute_sums overfull_line)
                                    0 2 0 [30] = ret r
    /\ r < -1.
Proof.
  destruct (ratio_below_minus_one (ParBox.precompute_sums overfull_line)
              0 2 0 [30])
    as [len [avail [y [z [r [El [Ea [_ [Ez [Er [P _]]]]]]]]]]];
    try (simpl; lia); try discriminate.
  exists r. split; [exact Er|].
  vm_compute in El, Ea, Ez.
  inversion El; subst len. inversion Ea; subst avail. inversion Ez; subst z.
  apply P. repeat split.
Defined.

Lemma add_active_node_position_witness :
  ParBox.add_active_node [ParBox.sentinel] ParBox.sentinel = [ParBox.sentinel].
Proof.
  destruct (add_active_node_position [ParBox.sentinel] ParBox.sentinel)
    as [[E _]|[pre [post [_ [_ [_ [_ N]]]]]]].
  - repeat constructor.
  - exact E.
  - exfalso. inversion N as [|? ? Ns _]. apply Ns. repeat split.
Defined.

Lemma final_breaks_is_one_position_witness :
  exists (active : ParBox.BreakpointList) (fb : ParBox.BreaksList),
    ParBox.compute_breaks two_loose_lines [100] 1 100 100
    = ParBox.NoReturn active fb
    /\ Forall (fun b => ParBox.previous b = None) active
    /\ length fb = 1%nat.
Proof.
  destruct (ParBox.compute_breaks two_loose_lines [100] 1 100 100)
    as [l|active fb|why] eqn:E;
    [vm_compute in E; discriminate| |vm_compute in E; discriminate].
  destruct (final_breaks_is_one_position two_loose_lines [100] 1 100 100
              active fb E) as [F [b [pre [post [_ [Ef _]]]]]].
  exists active, fb. split; [reflexivity|]. split; [exact F|].
  rewrite Ef. reflexivity.
Defined.

Lemma sentinel_wins_witness :
  exists (active : ParBox.BreakpointList),
    ParBox.compute_breaks two_loose_lines [100] 1 100 100
    = ParBox.NoReturn active [0%nat]
    /\ Forall sentinel_or_recorded active.
Proof.
  destruct (ParBox.compute_breaks two_loose_lines [100] 1 100 100)
    as [l|active fb|why] eqn:E;
    [vm_compute in E; discriminate| |vm_compute in E; discriminate].
  destruct (sentinel_wins two_loose_lines [100] 1 100 100 active fb)
    as [F W]; [discriminate|discriminate|exact E|].
  exists active. split; [|exact F].
  rewrite W; [reflexivity|].
  vm_compute in E. inversion E. left. reflexivity.
Defined.

Lemma compute_breaks_outcomes_witness :
  ParBox.m_nodes overfull_line <> []
  /\ possible_fault [30] DerefEndIterator.
Proof.
  pose proof (compute_breaks_outcomes overfull_line [30] 1 100 100) as K.
  assert (E : ParBox.compute_breaks overfull_line [30] 1 100 100
              = ParBox.Undefined DerefEndIterator)
    by (vm_compute; reflexivity).
  rewrite E in K. exact K.
Defined.

Lemma low_tolerance_records_nothing_witness :
  ParBox.compute_breaks exact_line [10] (1 # 2) 100 100
  = ParBox.NoReturn [ParBox.sentinel] [0%nat].
Proof.
  destruct (ParBox.compute_breaks exact_line [10] (1 # 2) 100 100)
    as [l|active fb|why] eqn:E;
    [vm_compute in E; discriminate| |vm_compute in E; discriminate].
  destruct (low_tolerance_records_nothing exact_line [10] (1 # 2) 100 100)
    as [_ K]; [reflexivity|].
  destruct (K active fb E) as [-> ->]. reflexivity.
Defined.

Lemma forced_break_empties_working_set_witness :
  ParBox.is_forced_break forced_line 1 = ret true
  /\ ParBox.is_feasible_breakpoint forced_line 1 = ret true
  /\ exists why,
       ParBox.compute_breaks forced_line [100] 1 100 100
       = ParBox.Undefined why.
Proof.
  destruct (forced_break_empties_working_set forced_line [100] 1 100 100 1
              (Penalty.make (-10000) false 0))
    as [Fo [Fe [_ U]]].
  - reflexivity.
  - reflexivity.
  - discriminate.
  - split; [exact Fo|]. split; [exact Fe|exact U].
Defined.

Lemma high_tolerance_records_all_witness :
  exists brk : ParBox.Breakpoint,
    ParBox.scan_active (ParBox.precompute_sums loose_line)
      (map ParBox.node_penalty (ParBox.m_nodes loose_line))
      (map ParBox.node_flagged (ParBox.m_nodes loose_line))
      [100] 1 100 100 2 [ParBox.sentinel]
    = ret ([ParBox.sentinel], [brk])
    /\ extends 2 ParBox.sentinel brk.
Proof.
  eexists. split; [vm_compute; reflexivity|].
  assert (F : Forall2 (extends 2) [ParBox.sentinel]
                [ParBox.mkBreakpoint 2 1 3 (0 + 0 + 10) (0 + 45 + 0)
                   (0 + 0 + 0) 513922501 None]).
  { apply (high_tolerance_records_all (ParBox.precompute_sums loose_line)
             (map ParBox.node_penalty (ParBox.m_nodes loose_line))
             (map ParBox.node_flagged (ParBox.m_nodes loose_line))
             [100] 1 100 100 2 [ParBox.sentinel]).
    - discriminate.
    - vm_compute. reflexivity. }
  inversion F; subst. assumption.
Defined.
